(** * Label mapping and pyfunc scoring wrapper of the SMS spam notebook

    Shallow embedding of the original logic of
    [tune-classification-model-hugging-face-transformers.py]:

    - the two dict comprehensions that build [id2label] and [label2id]
      from the collected label rows, and [replace_labels_with_ids];
    - [TextClassificationPipelineModel.load_context] and [.predict].

    Python values that can raise are modelled in an error monad; calls that
    touch the wrapper object or the model are modelled in a state/error
    monad whose state records the wrapper object and a trace of the batches
    that were run through the model. *)

From Stdlib Require Import QArith.
From stdpp Require Import base option list numbers strings gmap.

Close Scope Q_scope.

Set Default Proof Using "Type".

(** ** Python values, exceptions, results *)

(** The cells of a dataframe column and the labels of its axes: the notebook
    only ever meets strings, integers and missing values. *)
Inductive pyval :=
  | PyNone
  | PyInt (z : Z)
  | PyStr (s : string).

Global Instance pyval_eq_dec : EqDecision pyval.
Proof. solve_decision. Defined.

(** The exceptions the modelled code can raise. *)
Inductive exn :=
  | KeyError (key : pyval)
  | IndexError
  | AttributeError (attr : string)
  | ValueError
  | TypeError
  | RuntimeError.

Global Instance exn_eq_dec : EqDecision exn.
Proof. solve_decision. Defined.

Inductive result (A : Type) :=
  | Ok (a : A)
  | Raise (e : exn).
Global Arguments Ok {A} a.
Global Arguments Raise {A} e.

Global Instance result_ret : MRet result := λ A a, Ok a.
Global Instance result_bind : MBind result := λ A B f r,
  match r with
  | Ok a => f a
  | Raise e => Raise e
  end.
Global Instance result_fmap : FMap result := λ A B f r,
  match r with
  | Ok a => Ok (f a)
  | Raise e => Raise e
  end.

Definition is_Ok {A} (r : result A) : Prop := ∃ a, r = Ok a.

(** ** pandas and Spark data *)

(** [pd.Series]: an index and the values, position by position. *)
Record Series (A : Type) := mkSeries {
  s_index : list pyval;
  s_values : list A;
}.
Global Arguments mkSeries {A} s_index s_values.
Global Arguments s_index {A} s.
Global Arguments s_values {A} s.

(** [range(0, n)] as index labels: the [RangeIndex] pandas gives to a series
    built from a plain list. *)
Definition range_index (n : nat) : list pyval :=
  (λ i : nat, PyInt (Z.of_nat i)) <$> seq 0 n.

(** [pd.Series(values)] for a Python list [values]. *)
Definition pd_Series {A} (values : list A) : Series A :=
  mkSeries (range_index (length values)) values.

(** [series.to_list()]. *)
Definition to_list {A} (s : Series A) : list A := s_values s.

(** [series.apply(f)] for a function that may raise: [f] runs on the values
    in order, the first exception aborts, the index is kept. *)
Definition Series_apply {A B} (f : A → result B) (s : Series A)
    : result (Series B) :=
  mkSeries (s_index s) <$> mapM f (s_values s).

(** A collected row of [sms.select(label).groupBy(label).count()]. *)
Record Row := mkRow {
  label : string;
  count : nat;
}.

(** ** Label mapper (source lines 92-94 and 105-107) *)

(** [enumerate(l)]. *)
Definition enumerate {A} (l : list A) : list (nat * A) := imap pair l.

(** A dict comprehension [{k: v for ...}]: the pairs are inserted from left
    to right, a later pair overwrites an earlier one with the same key. *)
Definition dict_of `{Countable K} {V} (kvs : list (K * V)) : gmap K V :=
  foldl (λ d kv, <[kv.1 := kv.2]> d) ∅ kvs.

(** [id2label = {index: row.label for (index, row) in enumerate(labels)}] *)
Definition id2label (labels : list Row) : gmap nat string :=
  dict_of ((λ ir : nat * Row, (ir.1, label ir.2)) <$> enumerate labels).

(** [label2id = {row.label: index for (index, row) in enumerate(labels)}] *)
Definition label2id (labels : list Row) : gmap string nat :=
  dict_of ((λ ir : nat * Row, (label ir.2, ir.1)) <$> enumerate labels).

(** The two tables, built together from the one collected list. *)
Record LabelTable := mkLabelTable {
  label_to_id : gmap string nat;
  id_to_label : gmap nat string;
}.

Definition build (labels : list Row) : LabelTable :=
  mkLabelTable (label2id labels) (id2label labels).

(** [d[k]] on a dict: [KeyError] when the key is absent. *)
Definition subscript `{Countable K} {V} (key_repr : K → pyval)
    (d : gmap K V) (k : K) : result V :=
  match d !! k with
  | Some v => Ok v
  | None => Raise (KeyError (key_repr k))
  end.

(** [replace_labels_with_ids]: [labels.apply(lambda x: label2id[x])], with
    the global [label2id] it closes over taken as an argument. *)
Definition replace_labels_with_ids (label2id : gmap string nat)
    (labels : Series string) : result (Series nat) :=
  Series_apply (λ x, subscript PyStr label2id x) labels.

(** The spec's [encode], on plain sequences. *)
Definition encode (table : LabelTable) (labels : list string)
    : result (list nat) :=
  s_values <$> replace_labels_with_ids (label_to_id table) (pd_Series labels).

(** Modelled from the spec: the notebook has no [decode] function of its
    own (it hands [id2label] to the model configuration, where the library
    subscripts it with the predicted class id).  Following section 4.1,
    [decode] looks every id up in [id_to_label] and fails on an id outside
    the table. *)
Definition decode (table : LabelTable) (ids : list nat)
    : result (list string) :=
  mapM (λ i, subscript (λ n : nat, PyInt (Z.of_nat n)) (id_to_label table) i) ids.

(** The rows collected from the SMS corpus (5574 messages). *)
Definition sms_labels : list Row := [mkRow "ham" 4827; mkRow "spam" 747].

(** ** State and error monad

    A computation over a state [S] that returns a value or raises; the state
    reached when an exception is raised is kept, as the side effects that
    happened before a Python exception stay. *)
Definition M (S A : Type) : Type := S → S * result A.

Global Instance M_ret {S} : MRet (M S) := λ A a s, (s, Ok a).
Global Instance M_bind {S} : MBind (M S) := λ A B f c s,
  match c s with
  | (s', Ok a) => f a s'
  | (s', Raise e) => (s', Raise e)
  end.

(** A pure step that may raise. *)
Definition lift_result {S A} (r : result A) : M S A := λ s, (s, r).

(** ** Dataframes *)

(** [pd.DataFrame]: the row index and the columns in order, each with its
    label.  Column labels may repeat, as pandas allows. *)
Record DataFrame := mkDataFrame {
  df_index : list pyval;
  df_columns : list (pyval * list pyval);
}.

(** [df.columns]. *)
Definition columns (df : DataFrame) : list pyval := (df_columns df).*1.

(** [index[i]] on an [Index] or a list. *)
Definition getitem_pos {A} (l : list A) (i : nat) : result A :=
  match l !! i with
  | Some x => Ok x
  | None => Raise IndexError
  end.

(** What [df[key]] evaluates to. *)
Inductive frame_or_series :=
  | IsSeries (s : Series pyval)
  | IsFrame (df : DataFrame).

(** [df[key]] for a scalar [key]: the column with that label as a series;
    when several columns carry the label, the dataframe of those columns;
    [KeyError] when none does. *)
Definition getitem (df : DataFrame) (key : pyval) : result frame_or_series :=
  match filter (λ c, c.1 = key) (df_columns df) with
  | [] => Raise (KeyError key)
  | [c] => Ok (IsSeries (mkSeries (df_index df) c.2))
  | cs => Ok (IsFrame (mkDataFrame (df_index df) cs))
  end.

(** [x.to_list()]: a method of series.  A dataframe has no such method, and
    looks an unknown attribute up among its column labels: with a column
    labelled ["to_list"] the attribute is that column, which cannot be
    called; otherwise the attribute is missing. *)
Definition to_list_method (x : frame_or_series) : result (list pyval) :=
  match x with
  | IsSeries s => Ok (to_list s)
  | IsFrame df =>
      if bool_decide (PyStr "to_list" ∈ columns df)
      then Raise TypeError
      else Raise (AttributeError "to_list")
  end.

(** ** The transformers pipeline *)

(** One element of a text-classification pipeline's output:
    [{'label': ..., 'score': ...}]; the floating-point score is abstracted
    as a rational. *)
Record prediction := mkPrediction {
  prediction_label : string;
  prediction_score : Q;
}.

(** One invocation of the model, on a batch of token sequences. *)
Inductive event :=
  | Forward (batch : list (list nat)).

Definition Trace := list event.

(** A pipeline as [predict] sees it: a callable taking the inputs and the
    keyword arguments [truncation] and [batch_size]. *)
Definition Pipeline : Type :=
  list pyval → bool → option nat → M Trace (list prediction).

(** Modelled from the spec: the tokenizer and the fine-tuned model are
    library objects, not code of the notebook.  Following sections 3 and
    4.2, a model artifact carries a tokenizer with the model's maximum
    sequence length, a scorer giving the class-probability vector of a token
    sequence, and the [id2label] table of its configuration. *)
Record Model := mkModel {
  model_max_length : nat;
  tokenize : string → list nat;
  class_probs : list nat → list Q;
  config_id2label : gmap nat string;
}.

(** Modelled from the spec: the tokenizer call of the pipeline (and of
    [tokenize_function], line 142).  Only a string is tokenized; with
    [truncation=True] an over-long sequence is cut to the maximum length. *)
Definition tokenizer_call (m : Model) (truncation : bool) (x : pyval)
    : result (list nat) :=
  match x with
  | PyStr s =>
      let ids := tokenize m s in
      Ok (if truncation then take (model_max_length m) ids else ids)
  | _ => Raise ValueError
  end.

(** Modelled from the spec: one model invocation on a batch.  The call is
    recorded; a sequence longer than the maximum length makes the model
    raise. *)
Definition forward (m : Model) (batch : list (list nat))
    : M Trace (list (list Q)) := λ tr,
  (tr ++ [Forward batch],
   if forallb (λ ids, length ids <=? model_max_length m) batch
   then Ok (class_probs m <$> batch)
   else Raise RuntimeError).

(** Modelled from the spec: the argmax of section 4.2, as the position of
    the first maximum; [argmax_from] scans from position [i] with the best
    candidate so far. *)
Fixpoint argmax_from (best_i : nat) (best : Q) (i : nat) (l : list Q) : nat :=
  match l with
  | [] => best_i
  | x :: l' =>
      if Qle_bool x best then argmax_from best_i best (S i) l'
      else argmax_from i x (S i) l'
  end.

Definition argmax (l : list Q) : option nat :=
  match l with
  | [] => None
  | x :: l' => Some (argmax_from 0 x 1 l')
  end.

(** Modelled from the spec: the argmax over the class-probability vector,
    decoded through the model's [id2label]. *)
Definition postprocess (m : Model) (probs : list Q) : result prediction :=
  match argmax probs with
  | None => Raise ValueError
  | Some i =>
      lbl ← subscript (λ n : nat, PyInt (Z.of_nat n)) (config_id2label m) i;
      mret (mkPrediction lbl (nth i probs 0%Q))
  end.

(** Modelled from the spec: the partition of section 4.2 into chunks of at
    most [n] consecutive elements; [fuel] bounds the number of chunks, and
    the length of the list is always enough. *)
Fixpoint chunks_fuel {A} (fuel n : nat) (l : list A) : list (list A) :=
  match fuel with
  | 0 => []
  | S fuel' =>
      match l with
      | [] => []
      | _ => take n l :: chunks_fuel fuel' n (drop n l)
      end
  end.

Definition chunks {A} (n : nat) (l : list A) : list (list A) :=
  chunks_fuel (length l) n l.

(** Modelled from the spec: one chunk is tokenized, run through the model in
    one invocation, and every output is decoded to a prediction. *)
Definition run_chunk (m : Model) (truncation : bool) (chunk : list pyval)
    : M Trace (list prediction) :=
  batch ← lift_result (mapM (tokenizer_call m truncation) chunk);
  outs ← forward m batch;
  lift_result (mapM (postprocess m) outs).

(** Modelled from the spec: the pipeline object, made of the model artifact,
    the batch size given when it was constructed (if any) and the device. *)
Record TextClassificationPipeline := mkPipeline {
  pipeline_model : Model;
  _batch_size : option nat;
  device : Z;
}.

(** Modelled from the spec: calling the pipeline on a list of inputs.  The
    batch size is the keyword argument, else the one fixed at construction,
    else 1.  The inputs are split into chunks of at most that size, the
    chunks are run one at a time in order, and the predictions are
    concatenated; the first exception aborts the call. *)
Definition effective_batch_size (pl : TextClassificationPipeline)
    (batch_size : option nat) : nat :=
  match batch_size with
  | Some b => b
  | None => default 1 (_batch_size pl)
  end.

Definition pipeline_call (pl : TextClassificationPipeline) : Pipeline :=
  λ inputs truncation batch_size,
  let bs := effective_batch_size pl batch_size in
  match bs with
  | 0 => lift_result (Raise ValueError)
  | _ => outs ← mapM (run_chunk (pipeline_model pl) truncation)
                 (chunks bs inputs);
         mret (concat outs)
  end.

(** Modelled from the spec: the library constructor
    [pipeline("text-classification", model, batch_size=..., device=...)]. *)
Definition transformers_pipeline (task : string) (model : Model)
    (batch_size : option nat) (device : Z) : TextClassificationPipeline :=
  mkPipeline model batch_size device.


(** [tqdm(iterable, total=..., miniters=...)]: iterating it yields the
    elements of [iterable]; the progress bar is not modelled. *)
Definition tqdm {A} (iterable : list A) (total miniters : nat) : list A :=
  iterable.

(** ** The MLflow wrapper class (source lines 234-245) *)

Definition pipeline_artifact_name : string := "pipeline".

(** [context]: the artifacts by name; an artifact stands for the saved
    model and tokenizer that [pipeline(...)] loads. *)
Record PythonModelContext := mkContext {
  artifacts : gmap string Model;
}.

(** The wrapper object: its one attribute, unset until [load_context]. *)
Record TextClassificationPipelineModel := mkSelf {
  pipeline : option Pipeline;
}.

(** The state a call runs in: the wrapper object, the log of the calls made
    to the pipeline with their keyword arguments, and the trace of model
    invocations. *)
Record World := mkWorld {
  self : TextClassificationPipelineModel;
  pipeline_calls : list (list pyval * bool * option nat);
  trace : Trace;
}.

(** [self.pipeline]: [AttributeError] when the attribute is unset. *)
Definition get_pipeline : M World Pipeline := λ w,
  (w, match pipeline (self w) with
      | Some p => Ok p
      | None => Raise (AttributeError "pipeline")
      end).

(** [self.pipeline = p]. *)
Definition set_pipeline (p : Pipeline) : M World () := λ w,
  (mkWorld (mkSelf (Some p)) (pipeline_calls w) (trace w), Ok ()).

(** [p(texts, truncation=..., batch_size=...)]: the call is logged and the
    pipeline runs on the trace of model invocations. *)
Definition call_pipeline (p : Pipeline) (texts : list pyval)
    (truncation : bool) (batch_size : option nat)
    : M World (list prediction) := λ w,
  let '(tr, r) := p texts truncation batch_size (trace w) in
  (mkWorld (self w)
     (pipeline_calls w ++ [(texts, truncation, batch_size)]) tr, r).

(** [load_context]: [device = 0 if torch.cuda.is_available() else -1], then
    the pipeline is loaded from the artifact and stored in [self]. *)
Definition load_context (cuda_is_available : bool)
    (context : PythonModelContext) : M World () :=
  let device := if cuda_is_available then 0%Z else (-1)%Z in
  artifact ← lift_result
    (subscript PyStr (artifacts context) pipeline_artifact_name);
  set_pipeline
    (pipeline_call
       (transformers_pipeline "text-classification" artifact None device)).

(** [texts = model_input[model_input.columns[0]].to_list()] *)
Definition first_column_texts (model_input : DataFrame)
    : result (list pyval) :=
  c ← getitem_pos (columns model_input) 0;
  col ← getitem model_input c;
  to_list_method col.

(** [predict] *)
Definition predict (context : PythonModelContext) (model_input : DataFrame)
    : M World (Series string) :=
  texts ← lift_result (first_column_texts model_input);
  p ← get_pipeline;
  out ← call_pipeline p texts true (Some 8);
  let pipe := tqdm out (length texts) 10 in
  let labels := prediction_label <$> pipe in
  mret (pd_Series labels).

(** [pipe], line 264: the pipeline that is saved and logged, constructed
    with [batch_size=8]. *)
Definition pipe (model : Model) (device : Z) : TextClassificationPipeline :=
  transformers_pipeline "text-classification" model (Some 8) device.

(** ** A small model to run the definitions on *)

(** Character codes as token ids. *)
Definition char_tokenize (s : string) : list nat :=
  Ascii.nat_of_ascii <$> String.list_ascii_of_string s.

(** Scores a message as spam when it starts with 'f' or 'w'. *)
Definition first_letter_probs (ids : list nat) : list Q :=
  match ids with
  | c :: _ =>
      if bool_decide (c = 102 ∨ c = 119) then [1 # 10; 9 # 10]%Q
      else [4 # 5; 1 # 5]%Q
  | [] => [1 # 2; 1 # 2]%Q
  end.

Definition sms_model : Model :=
  mkModel 16 char_tokenize first_letter_probs (id2label sms_labels).

Definition sms_context : PythonModelContext :=
  mkContext {[ pipeline_artifact_name := sms_model ]}.

(** The world before anything ran, and after [load_context]. *)
Definition empty_world : World := mkWorld (mkSelf None) [] [].

Definition loaded_world : World := (load_context false sms_context empty_world).1.

(** A dataframe with the one column ["text"] and a range index. *)
Definition text_frame (texts : list pyval) : DataFrame :=
  mkDataFrame (range_index (length texts)) [(PyStr "text", texts)].

Definition sms_texts : list pyval :=
  [PyStr "free money now"; PyStr "see you at 5pm";
   PyStr "win a prize"; PyStr "lunch tomorrow?"].

(** A model whose scorer gives one probability per class, for [K] classes,
    and whose configuration names every class id below [K]. *)
Record model_ok (m : Model) (K : nat) : Prop := mkModelOk {
  ok_classes : 0 < K;
  ok_probs : ∀ ids, length (class_probs m ids) = K;
  ok_id2label : ∀ i, i < K → is_Some (config_id2label m !! i);
}.

(** The prediction for one text taken on its own: tokenized with
    truncation, scored in a batch of one, decoded. *)
Definition classify_one (m : Model) (text : string) : result prediction :=
  postprocess m (class_probs m (take (model_max_length m) (tokenize m text))).

Definition predicted_label (m : Model) (text : string) : result string :=
  prediction_label <$> classify_one m text.

(** [classify_one] as a total function, for models that are [model_ok]; the
    placeholder stands where the model would have raised. *)
Definition infer (m : Model) (text : string) : prediction :=
  match classify_one m text with
  | Ok p => p
  | Raise _ => mkPrediction "" 0%Q
  end.

(** The token sequence the model receives for a text under truncation. *)
Definition truncated_ids (m : Model) (text : string) : list nat :=
  take (model_max_length m) (tokenize m text).

(** A cell that is not a string. *)
Definition malformed (x : pyval) : Prop :=
  match x with
  | PyStr _ => False
  | _ => True
  end.

(** The first column of a dataframe holds [texts] and no other column
    carries its label. *)
Definition first_column_is (df : DataFrame) (texts : list pyval) : Prop :=
  ∃ c rest, df_columns df = (c, texts) :: rest ∧ c ∉ rest.*1.

(** The wrapper object of [w] holds the pipeline loaded from [m]. *)
Definition loaded_from (w : World) (m : Model) : Prop :=
  ∃ device, pipeline (self w)
    = Some (pipeline_call
              (transformers_pipeline "text-classification" m None device)).

(** A scoring session: [predict] called on one dataframe after the other,
    whatever each call returns or raises. *)
Definition serve (context : PythonModelContext) (inputs : list DataFrame)
    (w : World) : World :=
  foldl (λ w model_input, (predict context model_input w).1) w inputs.

(** A computation that only appends to the trace, with events and a result
    that do not depend on the trace it starts from. *)
Definition appends {A} (c : M Trace A) : Prop :=
  ∃ evs r, ∀ tr, c tr = (tr ++ evs, r).

(** The labels of a pipeline result. *)
Definition labels_of (r : result (list prediction)) : result (list string) :=
  fmap (M:=list) prediction_label <$> r.

(** Pipelines constructed with [batch_size=2] and with [batch_size=4]. *)
Definition sms_pipeline (batch_size : nat) : TextClassificationPipeline :=
  transformers_pipeline "text-classification" sms_model (Some batch_size) 0.

(** Nine cells, the last one missing: one full chunk of eight strings and a
    second chunk holding the missing value. *)
Definition nine_cells : list pyval := sms_texts ++ sms_texts ++ [PyNone].

(** Two columns carrying the same label. *)
Definition twin_frame : DataFrame :=
  mkDataFrame [PyInt 0]
    [(PyStr "text", [PyStr "win a prize"]); (PyStr "text", [PyStr "hello"])].

(** A message of 36 characters, longer than the 16 tokens [sms_model]
    accepts. *)
Definition long_text : string := "congratulations you have won a prize".

(** ** Further notebook code *)

(** [pd.concat(batches)]: the indexes and the values one after the other.
    Spark hands a pandas UDF such as [replace_labels_with_ids] (line 109)
    the column in batches and concatenates what it returns. *)
Definition Series_concat {A} (batches : list (Series A)) : Series A :=
  mkSeries (concat (s_index <$> batches)) (concat (s_values <$> batches)).

(** [np.argmax(logits, axis=-1)] on a two-dimensional array given by its
    rows: for each row the position of the first occurrence of its maximum;
    a row without entries has no argmax. *)
Definition np_argmax_rows (logits : list (list Q)) : result (list nat) :=
  mapM (λ row, match argmax row with
               | Some i => Ok i
               | None => Raise ValueError
               end) logits.

(** [compute_metrics] (lines 166-169), with [metric.compute] of the loaded
    metric taken as an argument:
    [logits, labels = eval_pred];
    [predictions = np.argmax(logits, axis=-1)];
    [return metric.compute(predictions=predictions, references=labels)]. *)
Definition compute_metrics {R}
    (metric_compute : list nat → list nat → result R)
    (eval_pred : list (list Q) * list nat) : result R :=
  let '(logits, labels) := eval_pred in
  predictions ← np_argmax_rows logits;
  metric_compute predictions labels.

(** An enumeration in which "ham" comes twice, as a list that was not
    grouped would give. *)
Definition ungrouped_labels : list Row :=
  [mkRow "ham" 1; mkRow "spam" 1; mkRow "ham" 1].

(** A world whose wrapper holds a pipeline that always raises, whatever it
    is given. *)
Definition failing_pipeline : Pipeline :=
  λ inputs truncation batch_size, lift_result (Raise ValueError).

Definition failing_world : World := mkWorld (mkSelf (Some failing_pipeline)) [] [].

(** Twenty text cells. *)
Definition twenty_texts : list string :=
  concat (replicate 5 ["free money now"; "see you at 5pm"; "win a prize";
                       "lunch tomorrow?"]).
(** ** Facts about the error monad *)

Section result_facts.
Context {A B : Type}.
Implicit Types (f : A → result B) (l : list A).

Lemma mapM_result_nil f : mapM f [] = Ok [].
Proof. done. Qed.

Lemma mapM_result_cons f x l :
  mapM f (x :: l) = y ← f x; k ← mapM f l; mret (y :: k).
Proof. done. Qed.

(** When [f] succeeds everywhere, [mapM f] is [fmap] of its results. *)
Lemma mapM_result_Ok f (g : A → B) l :
  Forall (λ x, f x = Ok (g x)) l → mapM f l = Ok (g <$> l).
Proof.
  induction 1 as [|x l Hx _ IH]; [done|].
  by rewrite mapM_result_cons, Hx, IH.
Qed.

(** The first failing element decides the exception. *)
Lemma mapM_result_Raise f (g : A → B) l1 x l2 e :
  Forall (λ y, f y = Ok (g y)) l1 → f x = Raise e →
  mapM f (l1 ++ x :: l2) = Raise e.
Proof.
  intros Hl1 Hx. induction Hl1 as [|y l1 Hy _ IH].
  - by rewrite app_nil_l, mapM_result_cons, Hx.
  - by rewrite <-app_comm_cons, mapM_result_cons, Hy, IH.
Qed.

Lemma mapM_result_length f l k : mapM f l = Ok k → length k = length l.
Proof.
  revert k. induction l as [|x l IH]; intros k.
  - by intros [= <-].
  - rewrite mapM_result_cons. destruct (f x) as [y|]; [|done]; simpl.
    destruct (mapM f l) as [k'|]; [|done]; simpl.
    intros [= <-]. simpl. f_equal. by apply IH.
Qed.
End result_facts.

(** Mapping a partial inverse over an image gives the original list. *)
Lemma mapM_result_fmap_inv {A B} (f : B → result A) (g : A → B) (l : list A) :
  Forall (λ x, f (g x) = Ok x) l → mapM f (g <$> l) = Ok l.
Proof.
  induction 1 as [|x l Hx _ IH]; [done|].
  by rewrite fmap_cons, mapM_result_cons, Hx, IH.
Qed.

(** ** Facts about the label mapper *)

Section dict_facts.
Context `{Countable K} {V : Type}.
Implicit Types (kvs : list (K * V)).

Lemma dict_of_nil : dict_of (@nil (K * V)) = ∅.
Proof. done. Qed.

Lemma dict_of_snoc kvs k v : dict_of (kvs ++ [(k, v)]) = <[k:=v]> (dict_of kvs).
Proof. unfold dict_of. by rewrite foldl_snoc. Qed.

Lemma dict_of_None kvs k : dict_of kvs !! k = None ↔ k ∉ kvs.*1.
Proof.
  induction kvs as [|[k' v'] kvs IH] using rev_ind.
  - rewrite dict_of_nil, lookup_empty. split; [intros _|done].
    by intros ?%elem_of_nil.
  - rewrite dict_of_snoc, fmap_app, not_elem_of_app. simpl.
    destruct (decide (k' = k)) as [->|Hne].
    + rewrite lookup_insert_eq. split; [done|].
      intros [_ Hk]. destruct Hk. by apply list_elem_of_singleton.
    + rewrite lookup_insert_ne, IH by done.
      rewrite list_elem_of_singleton. split; [by intros ?; split|tauto].
Qed.
End dict_facts.

Section label_mapper_facts.
Implicit Types (labels : list Row) (s : string) (i : nat).

Lemma enumerate_snoc {A} (l : list A) x :
  enumerate (l ++ [x]) = enumerate l ++ [(length l, x)].
Proof.
  unfold enumerate. rewrite imap_app. simpl. do 3 f_equal. lia.
Qed.

Lemma id2label_snoc labels r :
  id2label (labels ++ [r]) = <[length labels := label r]> (id2label labels).
Proof.
  unfold id2label. rewrite enumerate_snoc, fmap_app.
  apply (dict_of_snoc _ (length labels) (label r)).
Qed.

Lemma label2id_snoc labels r :
  label2id (labels ++ [r]) = <[label r := length labels]> (label2id labels).
Proof.
  unfold label2id. rewrite enumerate_snoc, fmap_app.
  apply (dict_of_snoc _ (label r) (length labels)).
Qed.

(** [id2label] maps every position of the enumeration to the label found
    there, and nothing else. *)
Lemma id2label_lookup labels i :
  id2label labels !! i = label <$> labels !! i.
Proof.
  induction labels as [|r labels IH] using rev_ind; [done|].
  rewrite id2label_snoc.
  destruct (decide (i = length labels)) as [->|Hne].
  - rewrite lookup_insert_eq, lookup_app_r, Nat.sub_diag by lia. done.
  - rewrite lookup_insert_ne, IH by done.
    destruct (decide (i < length labels)) as [Hlt|Hge].
    + by rewrite lookup_app_l.
    + rewrite (lookup_ge_None_2 labels), (lookup_ge_None_2 (labels ++ [r]));
        [done| |lia].
      rewrite length_app. simpl. lia.
Qed.

(** A label is a key of [label2id] exactly when it was enumerated. *)
Lemma label2id_None labels s :
  label2id labels !! s = None ↔ s ∉ label <$> labels.
Proof.
  induction labels as [|r labels IH] using rev_ind.
  - split; [intros _ ?%elem_of_nil|]; done.
  - rewrite label2id_snoc, fmap_app, not_elem_of_app. simpl.
    rewrite list_elem_of_singleton.
    destruct (decide (label r = s)) as [->|Hne].
    + rewrite lookup_insert_eq. split; [done|by intros [_ ?]].
    + rewrite lookup_insert_ne, IH by done.
      split; [intros ?; split; [done|congruence]|tauto].
Qed.

Lemma label2id_is_Some labels s :
  is_Some (label2id labels !! s) ↔ s ∈ label <$> labels.
Proof.
  rewrite <-not_eq_None_Some, label2id_None.
  destruct (decide (s ∈ label <$> labels)); tauto.
Qed.

(** For an enumeration without repeated labels, [label2id] maps a label to
    the position where it was enumerated, and only there. *)
Lemma label2id_lookup labels s i :
  NoDup (label <$> labels) →
  label2id labels !! s = Some i ↔ label <$> labels !! i = Some s.
Proof.
  induction labels as [|r labels IH] using rev_ind; [done|].
  rewrite fmap_app. simpl. intros [Hnd [Hfresh _]]%NoDup_app.
  rewrite label2id_snoc.
  assert (label r ∉ label <$> labels) as Hr.
  { intros Hin. apply (Hfresh _ Hin). by apply list_elem_of_singleton. }
  destruct (decide (i < length labels)) as [Hlt|Hge].
  - rewrite lookup_app_l by done.
    destruct (decide (label r = s)) as [<-|Hne].
    + rewrite lookup_insert_eq. split; [intros [= <-]; lia|].
      intros Hi. destruct Hr. apply list_elem_of_lookup. exists i.
      by rewrite list_lookup_fmap.
    + rewrite lookup_insert_ne by done. by apply IH.
  - rewrite lookup_app_r by lia.
    destruct (decide (label r = s)) as [<-|Hne].
    + rewrite lookup_insert_eq.
      destruct (decide (i = length labels)) as [->|Hi].
      * by rewrite Nat.sub_diag.
      * split; [congruence|].
        destruct (i - length labels) as [|n] eqn:E; [lia|done].
    + rewrite lookup_insert_ne, (IH Hnd) by done.
      rewrite (lookup_ge_None_2 labels) by lia.
      destruct (i - length labels) as [|n]; simpl;
        (split; [done|]); [by intros [= ?]|done].
Qed.
End label_mapper_facts.

(** [label2id] keeps, for every label, the last position where it was
    enumerated. *)
Lemma label2id_lookup_last (labels : list Row) (s : string) (i : nat) :
  label2id labels !! s = Some i ↔
  (label <$> labels) !! i = Some s
  ∧ ∀ j, i < j → (label <$> labels) !! j ≠ Some s.
Proof.
  induction labels as [|r labels IH] using rev_ind.
  { split; [done|]. by intros [? _]. }
  rewrite label2id_snoc, fmap_app. cbn [fmap list_fmap].
  assert (length (label <$> labels) = length labels) as Hlen
    by apply length_fmap.
  destruct (decide (label r = s)) as [<-|Hne].
  - rewrite lookup_insert_eq. split.
    + intros [= <-]. split.
      * by rewrite lookup_app_r, Hlen, Nat.sub_diag by lia.
      * intros j Hj. rewrite lookup_ge_None_2; [done|].
        rewrite length_app. simpl. lia.
    + intros [Hi Hlast].
      destruct (decide (i = length labels)) as [->|Hi']; [done|].
      exfalso. apply (Hlast (length labels)).
      * apply lookup_lt_Some in Hi. rewrite length_app in Hi. simpl in Hi. lia.
      * by rewrite lookup_app_r, Hlen, Nat.sub_diag by lia.
  - rewrite lookup_insert_ne, IH by done. split.
    + intros [Hi Hlast]. pose proof (lookup_lt_Some _ _ _ Hi) as Hlt.
      split; [by rewrite lookup_app_l|].
      intros j Hj. destruct (decide (j < length labels)) as [Hjl|Hjl].
      * rewrite lookup_app_l by lia. by apply Hlast.
      * rewrite lookup_app_r by lia.
        destruct (j - length (label <$> labels)) as [|n];
          [by intros [= ?]|done].
    + intros [Hi Hlast].
      destruct (decide (i < length labels)) as [Hil|Hil].
      * rewrite lookup_app_l in Hi by lia. split; [done|].
        intros j Hj Hjs. apply (Hlast j Hj).
        rewrite lookup_app_l; [done|]. by apply lookup_lt_Some in Hjs.
      * rewrite lookup_app_r in Hi by lia.
        destruct (i - length (label <$> labels)) as [|n]; [|done].
        by injection Hi.
Qed.

Section label_mapper_claims.
Implicit Types (labels : list Row) (s : string) (i : nat).

Lemma encode_unfold table (ls : list string) :
  encode table ls = mapM (subscript PyStr (label_to_id table)) ls.
Proof.
  unfold encode, replace_labels_with_ids, Series_apply. simpl.
  by destruct (mapM _ ls).
Qed.

Lemma replace_labels_with_ids_unfold (d : gmap string nat) (ser : Series string) :
  replace_labels_with_ids d ser
  = mkSeries (s_index ser) <$> mapM (subscript PyStr d) (s_values ser).
Proof. reflexivity. Qed.

Lemma subscript_Some `{Countable K} {V} (repr : K → pyval)
    (d : gmap K V) k v :
  d !! k = Some v → subscript repr d k = Ok v.
Proof. unfold subscript. by intros ->. Qed.

Lemma subscript_None `{Countable K} {V} (repr : K → pyval)
    (d : gmap K V) k :
  d !! k = None → subscript repr d k = Raise (KeyError (repr k)).
Proof. unfold subscript. by intros ->. Qed.
End label_mapper_claims.

(** ** The label mapper claims *)

(** C3: for an enumeration of K distinct labels, [label_to_id] and
    [id_to_label] built by [build] are inverse to each other, the assigned
    ids are exactly 0..K-1, no id is given twice, and the id of a label is
    its position in the enumeration. *)
Theorem build_bijection (labels : list Row) :
  NoDup (label <$> labels) →
  let t := build labels in
  (∀ s, s ∈ label <$> labels →
     ∃ i, label_to_id t !! s = Some i ∧ id_to_label t !! i = Some s) ∧
  (∀ i s, id_to_label t !! i = Some s → label_to_id t !! s = Some i) ∧
  (∀ i, (∃ s, label_to_id t !! s = Some i) ↔ i < length labels) ∧
  (∀ i, is_Some (id_to_label t !! i) ↔ i < length labels) ∧
  (∀ s1 s2 i,
     label_to_id t !! s1 = Some i → label_to_id t !! s2 = Some i → s1 = s2) ∧
  (∀ s i, label_to_id t !! s = Some i ↔ (label <$> labels) !! i = Some s).
Proof.
  intros Hnd t. subst t. simpl.
  assert (∀ s i, label2id labels !! s = Some i ↔ (label <$> labels) !! i = Some s)
    as Hpos.
  { intros s i. rewrite list_lookup_fmap. by apply label2id_lookup. }
  assert (∀ i, id2label labels !! i = (label <$> labels) !! i) as Hid.
  { intros i. by rewrite id2label_lookup, list_lookup_fmap. }
  repeat split.
  - intros s [i Hi]%list_elem_of_lookup. exists i.
    by rewrite Hpos, Hid.
  - intros i s. by rewrite Hpos, Hid.
  - intros [s Hs]. apply Hpos, lookup_lt_Some in Hs.
    by rewrite length_fmap in Hs.
  - intros Hlt. destruct (lookup_lt_is_Some_2 (label <$> labels) i) as [s Hs].
    { by rewrite length_fmap. }
    exists s. by apply Hpos.
  - rewrite Hid. intros ?%lookup_lt_is_Some. by rewrite length_fmap in *.
  - rewrite Hid. intros ?. apply lookup_lt_is_Some. by rewrite length_fmap.
  - intros s1 s2 i H1%Hpos H2%Hpos. congruence.
  - apply Hpos.
  - apply Hpos.
Qed.

Lemma build_bijection_witness :
  let t := build sms_labels in
  (∀ s, s ∈ label <$> sms_labels →
     ∃ i, label_to_id t !! s = Some i ∧ id_to_label t !! i = Some s) ∧
  (∀ i s, id_to_label t !! i = Some s → label_to_id t !! s = Some i) ∧
  (∀ i, (∃ s, label_to_id t !! s = Some i) ↔ i < length sms_labels) ∧
  (∀ i, is_Some (id_to_label t !! i) ↔ i < length sms_labels) ∧
  (∀ s1 s2 i,
     label_to_id t !! s1 = Some i → label_to_id t !! s2 = Some i → s1 = s2) ∧
  (∀ s i, label_to_id t !! s = Some i ↔ (label <$> sms_labels) !! i = Some s).
Proof. apply (build_bijection sms_labels). compute_done. Defined.

Lemma encode_in_table (labels : list Row) (ls : list string) :
  Forall (λ s, s ∈ label <$> labels) ls →
  encode (build labels) ls
  = Ok ((λ s, default 0 (label2id labels !! s)) <$> ls).
Proof.
  intros Hin. rewrite encode_unfold. apply mapM_result_Ok.
  eapply Forall_impl; [exact Hin|]. simpl.
  intros s [i Hi]%label2id_is_Some. by rewrite (subscript_Some _ _ _ i), Hi.
Qed.

(** C2: building the table from distinct labels, encoding labels drawn from
    them and decoding the ids gives the labels back; for "ham", "spam"
    enumerated in that order, "spam","ham","spam" encodes to 1,0,1 and 1,0,1
    decodes to "spam","ham","spam". *)
Theorem encode_decode_roundtrip :
  (∀ (distinct : list Row) (ls : list string),
     NoDup (label <$> distinct) →
     Forall (λ s, s ∈ label <$> distinct) ls →
     ∃ ids, encode (build distinct) ls = Ok ids
            ∧ decode (build distinct) ids = Ok ls) ∧
  label_to_id (build sms_labels) = {[ "ham" := 0; "spam" := 1 ]} ∧
  encode (build sms_labels) ["spam"; "ham"; "spam"] = Ok [1; 0; 1] ∧
  decode (build sms_labels) [1; 0; 1] = Ok ["spam"; "ham"; "spam"].
Proof.
  split; [|by vm_compute].
  intros distinct ls Hnd Hin. eexists. split; [by apply encode_in_table|].
  unfold decode. apply mapM_result_fmap_inv.
  eapply Forall_impl; [exact Hin|]. simpl.
  intros s [i Hi]%list_elem_of_lookup. rewrite list_lookup_fmap in Hi.
  rewrite (proj2 (label2id_lookup distinct s i Hnd) Hi). simpl.
  apply subscript_Some. by rewrite id2label_lookup.
Qed.

Lemma encode_decode_roundtrip_witness :
  ∃ ids, encode (build sms_labels) ["spam"; "ham"; "spam"] = Ok ids
         ∧ decode (build sms_labels) ids = Ok ["spam"; "ham"; "spam"].
Proof.
  apply (proj1 encode_decode_roundtrip sms_labels); compute_done.
Defined.

(** C4: when some label of the column is not a key of the table, encoding
    raises the key error of the first such label; no series of ids, hence no
    default id, is returned. *)
Theorem encode_unknown_label (table : LabelTable) (labels : Series string) :
  Exists (λ s, label_to_id table !! s = None) (s_values labels) →
  ∃ s, s ∈ s_values labels ∧ label_to_id table !! s = None ∧
       replace_labels_with_ids (label_to_id table) labels
       = Raise (KeyError (PyStr s)) ∧
       encode table (s_values labels) = Raise (KeyError (PyStr s)) ∧
       ¬ is_Ok (replace_labels_with_ids (label_to_id table) labels) ∧
       ¬ is_Ok (encode table (s_values labels)).
Proof.
  intros Hex.
  assert (∃ s, s ∈ s_values labels ∧ label_to_id table !! s = None ∧
               mapM (subscript PyStr (label_to_id table)) (s_values labels)
               = Raise (KeyError (PyStr s))) as (s & Hs & Hnone & Hraise).
  { induction (s_values labels) as [|x l IH]; [by apply Exists_nil in Hex|].
    rewrite mapM_result_cons.
    destruct (label_to_id table !! x) as [v|] eqn:Hx.
    - apply Exists_cons in Hex as [Hex|Hex]; [congruence|].
      destruct (IH Hex) as (s & Hs & Hnone & Hraise).
      exists s. split; [by right|]. split; [done|].
      by rewrite (subscript_Some _ _ _ v), Hraise.
    - exists x. split; [by left|]. split; [done|].
      by rewrite subscript_None. }
  exists s. split; [done|]. split; [done|].
  assert (replace_labels_with_ids (label_to_id table) labels
          = Raise (KeyError (PyStr s))) as Hr.
  { by rewrite replace_labels_with_ids_unfold, Hraise. }
  assert (encode table (s_values labels) = Raise (KeyError (PyStr s))) as He.
  { by rewrite encode_unfold. }
  rewrite Hr, He. repeat split; by intros [? ?].
Qed.

Lemma encode_unknown_label_witness :
  ∃ s, s ∈ ["ham"; "junk"; "spam"] ∧
       label_to_id (build sms_labels) !! s = None ∧
       replace_labels_with_ids (label_to_id (build sms_labels))
         (pd_Series ["ham"; "junk"; "spam"])
       = Raise (KeyError (PyStr s)) ∧
       encode (build sms_labels) ["ham"; "junk"; "spam"]
       = Raise (KeyError (PyStr s)) ∧
       ¬ is_Ok (replace_labels_with_ids (label_to_id (build sms_labels))
                  (pd_Series ["ham"; "junk"; "spam"])) ∧
       ¬ is_Ok (encode (build sms_labels) ["ham"; "junk"; "spam"]).
Proof.
  apply (encode_unknown_label (build sms_labels)
           (pd_Series ["ham"; "junk"; "spam"])).
  apply Exists_cons_tl, Exists_cons_hd. by vm_compute.
Defined.

Lemma label2id_ext (run1 run2 : list Row) :
  label <$> run1 = label <$> run2 → label2id run1 = label2id run2.
Proof.
  revert run2. induction run1 as [|r1 run1 IH] using rev_ind; intros run2.
  - destruct run2; [done|]. by intros [=].
  - destruct run2 as [|r2 run2 _] using rev_ind.
    + rewrite fmap_app. intros Heq. symmetry in Heq.
      by apply app_cons_not_nil in Heq.
    + rewrite !fmap_app. simpl. intros [Heq [= Hr]]%app_inj_tail.
      rewrite !label2id_snoc, Hr, (IH _ Heq).
      apply (f_equal length) in Heq. rewrite !length_fmap in Heq.
      by rewrite Heq.
Qed.

(** C9: two runs of [build] over enumerations that list the same labels in
    the same order produce identical tables, and the ids are fixed by the
    order of that enumeration alone: [id_to_label] holds at every id the
    label enumerated at that position, and [label_to_id] gives every
    enumerated label the position where it was enumerated (the last one,
    should a label come twice), and nothing to any other label. *)
Theorem build_deterministic (run1 run2 : list Row) :
  label <$> run1 = label <$> run2 →
  build run1 = build run2
  ∧ (∀ i, id_to_label (build run1) !! i = (label <$> run1) !! i)
  ∧ (∀ i, id_to_label (build run2) !! i = (label <$> run1) !! i)
  ∧ (∀ s i, label_to_id (build run2) !! s = Some i ↔
            (label <$> run1) !! i = Some s
            ∧ ∀ j, i < j → (label <$> run1) !! j ≠ Some s)
  ∧ (∀ s, s ∈ label <$> run1 → is_Some (label_to_id (build run2) !! s))
  ∧ (NoDup (label <$> run1) →
     ∀ s i, label_to_id (build run2) !! s = Some i ↔
            (label <$> run1) !! i = Some s).
Proof.
  intros Heq.
  assert (∀ labels i, id2label labels !! i = (label <$> labels) !! i) as Hid.
  { intros labels i. by rewrite id2label_lookup, list_lookup_fmap. }
  split; [|split; [|split; [|split; [|split]]]].
  - unfold build. f_equal; [by apply label2id_ext|].
    apply map_eq. intros i. by rewrite !Hid, Heq.
  - intros i. simpl. by rewrite Hid.
  - intros i. simpl. by rewrite Hid, Heq.
  - intros s i. simpl. rewrite Heq. apply label2id_lookup_last.
  - intros s Hs. simpl. apply label2id_is_Some. by rewrite <-Heq.
  - intros Hnd s i. simpl. rewrite Heq in Hnd |- *.
    rewrite list_lookup_fmap. by apply label2id_lookup.
Qed.

Lemma build_deterministic_witness :
  build sms_labels = build [mkRow "ham" 1; mkRow "spam" 1]
  ∧ label_to_id (build [mkRow "ham" 1; mkRow "spam" 1]) !! "spam" = Some 1.
Proof.
  destruct (build_deterministic sms_labels [mkRow "ham" 1; mkRow "spam" 1]
              eq_refl) as (Hbuild & _ & _ & _ & _ & Hpos).
  split; [exact Hbuild|].
  apply Hpos; [compute_done|reflexivity].
Defined.

(** ** Chunking *)

Section chunks_facts.
Context {A : Type}.
Implicit Types (l : list A) (n fuel : nat).

Lemma chunks_fuel_nil fuel n : chunks_fuel fuel n (@nil A) = [].
Proof. by destruct fuel. Qed.

Lemma chunks_nil n : chunks n (@nil A) = [].
Proof. done. Qed.

(** Any fuel of at least the length gives the same chunks. *)
Lemma chunks_fuel_enough fuel n l :
  0 < n → length l ≤ fuel → chunks_fuel fuel n l = chunks n l.
Proof.
  intros Hn. unfold chunks.
  remember (length l) as k eqn:Hk.
  revert l fuel Hk. induction k as [k IH] using lt_wf_ind.
  intros l fuel -> Hfuel. destruct l as [|x l].
  { by rewrite chunks_fuel_nil. }
  destruct fuel as [|fuel]; [simpl in Hfuel; lia|].
  cbn [length chunks_fuel]. f_equal.
  assert (length (drop n (x :: l)) < length (x :: l)) as Hlt.
  { rewrite length_drop. simpl. lia. }
  rewrite (IH (length (drop n (x :: l))) Hlt _ fuel eq_refl) by (simpl in *; lia).
  rewrite (IH (length (drop n (x :: l))) Hlt _ (length l) eq_refl); [done|].
  simpl in *; lia.
Qed.

Lemma chunks_cons n x l :
  0 < n → chunks n (x :: l) = take n (x :: l) :: chunks n (drop n (x :: l)).
Proof.
  intros Hn. unfold chunks at 1. cbn [length chunks_fuel]. f_equal.
  apply chunks_fuel_enough; [done|].
  rewrite length_drop. simpl. lia.
Qed.

(** Induction along the chunks of a list. *)
Lemma chunks_ind n (P : list A → Prop) :
  0 < n →
  P [] →
  (∀ x l, P (drop n (x :: l)) → P (x :: l)) →
  ∀ l, P l.
Proof.
  intros Hn Hnil Hstep l.
  remember (length l) as k eqn:Hk.
  revert l Hk. induction k as [k IH] using lt_wf_ind.
  intros [|x l] ->; [done|].
  apply Hstep. apply (IH (length (drop n (x :: l)))); [|done].
  rewrite length_drop. simpl. lia.
Qed.

(** Chunking is invisible after flattening. *)
Lemma chunks_concat n l : 0 < n → concat (chunks n l) = l.
Proof.
  intros Hn. revert l. apply (chunks_ind n); [done|done|].
  intros x l IH. rewrite chunks_cons by done. cbn [concat]. rewrite IH.
  apply take_drop.
Qed.

(** No chunk is empty and none exceeds the batch size. *)
Lemma chunks_sizes n l :
  0 < n → Forall (λ c, 0 < length c ≤ n) (chunks n l).
Proof.
  intros Hn. revert l. apply (chunks_ind n); [done| |].
  { by apply Forall_nil. }
  intros x l IH. rewrite chunks_cons by done. apply Forall_cons. split; [|done].
  rewrite length_take. simpl. lia.
Qed.

(** A prefix made of whole chunks is chunked on its own. *)
Lemma chunks_app_whole n q l1 l2 :
  0 < n → length l1 = q * n →
  chunks n (l1 ++ l2) = chunks n l1 ++ chunks n l2.
Proof.
  intros Hn. revert l1. induction q as [|q IH]; intros l1 Hlen.
  { by destruct l1. }
  destruct l1 as [|x l1]; [simpl in Hlen; lia|].
  rewrite <-app_comm_cons, !chunks_cons by done.
  rewrite !app_comm_cons.
  assert (n ≤ length (x :: l1)) as Hle by (rewrite Hlen; lia).
  rewrite take_app_le, drop_app_le by done.
  rewrite IH; [done|]. rewrite length_drop, Hlen. lia.
Qed.
End chunks_facts.

Lemma chunks_fmap {A B} (f : A → B) n (l : list A) :
  0 < n → chunks n (f <$> l) = fmap (M:=list) f <$> chunks n l.
Proof.
  intros Hn. revert l. apply (chunks_ind n); [done|done|].
  intros x l IH. rewrite fmap_cons, !chunks_cons by done.
  rewrite <-fmap_cons, <-fmap_take, <-fmap_drop, IH. done.
Qed.

(** ** The state monad, pointwise *)

Section M_facts.
Context {S A B : Type}.
Implicit Types (c : M S A) (f : A → M S B) (s : S).

Lemma M_bind_Ok c f s s' a : c s = (s', Ok a) → (c ≫= f) s = f a s'.
Proof. unfold mbind, M_bind. by intros ->. Qed.

Lemma M_bind_Raise c f s s' e :
  c s = (s', Raise e) → (c ≫= f) s = (s', Raise e).
Proof. unfold mbind, M_bind. by intros ->. Qed.

Lemma mapM_M_cons f x (l : list A) :
  mapM f (x :: l) = y ← f x; k ← mapM f l; mret (y :: k).
Proof. done. Qed.
End M_facts.

Section mapM_trace.
Context {A B : Type}.
Implicit Types (f : A → M Trace B) (ev : A → list event) (g : A → B).

(** Steps that each append their events and succeed. *)
Lemma mapM_trace_Ok f ev g (l : list A) tr :
  Forall (λ x, ∀ tr, f x tr = (tr ++ ev x, Ok (g x))) l →
  mapM f l tr = (tr ++ concat (ev <$> l), Ok (g <$> l)).
Proof.
  intros Hl. revert tr. induction Hl as [|x l Hx _ IH]; intros tr.
  { simpl. by rewrite app_nil_r. }
  rewrite mapM_M_cons.
  rewrite (M_bind_Ok _ _ _ _ _ (Hx tr)).
  rewrite (M_bind_Ok _ _ _ _ _ (IH _)).
  rewrite fmap_cons. cbn [concat]. by rewrite app_assoc.
Qed.

(** The first step that raises aborts the rest. *)
Lemma mapM_trace_Raise {C} f (h : C → A) (ev' : C → list event) (g' : C → B)
    (l1 : list C) x l2 evx e tr :
  Forall (λ y, ∀ tr, f (h y) tr = (tr ++ ev' y, Ok (g' y))) l1 →
  (∀ tr, f x tr = (tr ++ evx, Raise e)) →
  mapM f ((h <$> l1) ++ x :: l2) tr
  = (tr ++ concat (ev' <$> l1) ++ evx, Raise e).
Proof.
  intros Hl1 Hx. revert tr. induction Hl1 as [|y l1 Hy _ IH]; intros tr.
  { rewrite fmap_nil, app_nil_l, mapM_M_cons.
    by rewrite (M_bind_Raise _ _ _ _ _ (Hx tr)). }
  rewrite fmap_cons, <-app_comm_cons, mapM_M_cons.
  rewrite (M_bind_Ok _ _ _ _ _ (Hy tr)).
  rewrite (M_bind_Raise _ _ _ _ _ (IH _)).
  rewrite fmap_cons. cbn [concat]. by rewrite !app_assoc.
Qed.
End mapM_trace.

Lemma mapM_M_fmap {S A B C} (f : B → M S C) (h : A → B) (l : list A) :
  mapM f (h <$> l) = mapM (f ∘ h) l.
Proof.
  induction l as [|x l IH]; [done|].
  by rewrite fmap_cons, !mapM_M_cons, IH.
Qed.

Lemma mapM_result_fmap_Ok {A B C} (f : B → result C) (h : A → B) (g : A → C)
    (l : list A) :
  (∀ x, f (h x) = Ok (g x)) → mapM f (h <$> l) = Ok (g <$> l).
Proof.
  intros Hf. induction l as [|x l IH]; [done|].
  by rewrite !fmap_cons, mapM_result_cons, Hf, IH.
Qed.

(** ** The pipeline on text *)

Lemma argmax_from_lt l best_i best i :
  best_i < i → argmax_from best_i best i l < i + length l.
Proof.
  revert best_i best i. induction l as [|x l IH]; intros best_i best i Hlt.
  { simpl. lia. }
  simpl. destruct (Qle_bool x best).
  - specialize (IH best_i best (S i)). lia.
  - specialize (IH i x (S i)). lia.
Qed.

Lemma argmax_lt l i : argmax l = Some i → i < length l.
Proof.
  destruct l as [|x l]; [done|]. intros [= <-].
  pose proof (argmax_from_lt l 0 x 1). simpl. lia.
Qed.

Section pipeline_facts.
Context (m : Model) (K : nat) (Hok : model_ok m K).
Implicit Types (ss : list string) (tr : Trace).

Lemma postprocess_Ok ids : is_Ok (postprocess m (class_probs m ids)).
Proof using Hok.
  unfold postprocess. destruct (argmax (class_probs m ids)) as [i|] eqn:Hi.
  - apply argmax_lt in Hi. rewrite (ok_probs m K Hok) in Hi.
    destruct (ok_id2label m K Hok i Hi) as [lbl Hlbl].
    rewrite (subscript_Some _ _ _ lbl) by done. by eexists.
  - pose proof (ok_classes m K Hok). pose proof (ok_probs m K Hok ids).
    destruct (class_probs m ids); [simpl in *; lia|done].
Qed.

Lemma classify_one_infer s : classify_one m s = Ok (infer m s).
Proof using Hok.
  unfold infer. destruct (postprocess_Ok (truncated_ids m s)) as [p Hp].
  unfold truncated_ids in Hp. unfold classify_one. by rewrite Hp.
Qed.

Lemma tokenize_strings ss :
  mapM (tokenizer_call m true) (PyStr <$> ss) = Ok (truncated_ids m <$> ss).
Proof. by apply mapM_result_fmap_Ok. Qed.

Lemma truncated_fit ss :
  forallb (λ ids, length ids <=? model_max_length m) (truncated_ids m <$> ss)
  = true.
Proof.
  apply forallb_forall. intros ids [s [<- _]]%in_map_iff.
  apply Nat.leb_le. unfold truncated_ids. rewrite length_take. lia.
Qed.

(** A chunk of strings costs one model invocation and yields one prediction
    per string. *)
Lemma run_chunk_strings ss tr :
  run_chunk m true (PyStr <$> ss) tr
  = (tr ++ [Forward (truncated_ids m <$> ss)], Ok (infer m <$> ss)).
Proof using Hok.
  unfold run_chunk. rewrite tokenize_strings.
  erewrite M_bind_Ok; [|reflexivity].
  erewrite M_bind_Ok; last first.
  { unfold forward. by rewrite truncated_fit. }
  unfold lift_result. f_equal.
  rewrite <-list_fmap_compose. apply mapM_result_fmap_Ok.
  intros s. apply classify_one_infer.
Qed.

(** A chunk holding a cell that is not a string is refused by the tokenizer,
    before the model is invoked for that chunk. *)
Lemma run_chunk_malformed truncation ss bad rest tr :
  malformed bad →
  run_chunk m truncation ((PyStr <$> ss) ++ bad :: rest) tr
  = (tr, Raise ValueError).
Proof.
  intros Hbad. unfold run_chunk.
  assert (mapM (tokenizer_call m truncation) ((PyStr <$> ss) ++ bad :: rest)
          = Raise ValueError) as ->; [|done].
  apply (mapM_result_Raise _
           (λ x, match tokenizer_call m truncation x with
                 | Ok ids => ids | Raise _ => [] end)).
  - apply Forall_fmap, Forall_forall. by intros s _.
  - by destruct bad.
Qed.

(** The pipeline on strings only: one model invocation per chunk, and the
    predictions of the texts in their order. *)
Lemma pipeline_call_strings pl ss batch_size tr :
  pipeline_model pl = m →
  0 < effective_batch_size pl batch_size →
  pipeline_call pl (PyStr <$> ss) true batch_size tr
  = (tr ++ ((λ c, Forward (truncated_ids m <$> c))
              <$> chunks (effective_batch_size pl batch_size) ss),
     Ok (infer m <$> ss)).
Proof using Hok.
  intros Hm Hbs. unfold pipeline_call. rewrite Hm.
  destruct (effective_batch_size pl batch_size) as [|n] eqn:Hn; [lia|].
  rewrite chunks_fmap, mapM_M_fmap by done.
  erewrite M_bind_Ok; last first.
  { apply (mapM_trace_Ok _ (λ c, [Forward (truncated_ids m <$> c)])
             (λ c, infer m <$> c)).
    apply Forall_forall. intros c _ tr'. simpl.
    apply run_chunk_strings. }
  unfold mret, M_ret. f_equal.
  - f_equal.
    induction (chunks (S n) ss) as [|c cs IH]; [done|].
    rewrite !fmap_cons. cbn [concat]. by rewrite IH.
  - f_equal.
    rewrite <-(chunks_concat (S n) ss) at 2 by lia.
    induction (chunks (S n) ss) as [|c cs IH]; [done|].
    rewrite fmap_cons. cbn [concat]. by rewrite fmap_app, IH.
Qed.
End pipeline_facts.

Section pipeline_malformed.
Context (m : Model) (K : nat) (Hok : model_ok m K).

Lemma chunks_nonempty {A} n (l : list A) :
  0 < n → l ≠ [] → chunks n l = take n l :: chunks n (drop n l).
Proof. intros Hn Hl. destruct l; [done|]. by apply chunks_cons. Qed.

(** With a cell that is not a string in the inputs, the whole chunks before
    it are run through the model; the chunk holding it raises in the
    tokenizer, and nothing is returned. *)
Lemma pipeline_call_malformed pl good bad rest batch_size tr :
  pipeline_model pl = m →
  0 < effective_batch_size pl batch_size →
  malformed bad →
  let bs := effective_batch_size pl batch_size in
  pipeline_call pl ((PyStr <$> good) ++ bad :: rest) true batch_size tr
  = (tr ++ ((λ c, Forward (truncated_ids m <$> c))
              <$> chunks bs (take (length good / bs * bs) good)),
     Raise ValueError).
Proof using Hok.
  intros Hm Hbs Hbad bs. unfold pipeline_call. rewrite Hm. fold bs.
  destruct bs as [|n] eqn:Hn; [lia|]. rewrite <-Hn. clear Hn.
  assert (0 < bs) as Hpos by done. clearbody bs.
  set (q := length good / bs).
  pose proof (Nat.div_mod_eq (length good) bs) as Hdiv.
  pose proof (Nat.mod_upper_bound (length good) bs) as Hmod.
  assert (length (take (q * bs) good) = q * bs) as Hlen1.
  { rewrite length_take. unfold q. lia. }
  assert (length (drop (q * bs) good) < bs) as Hlen2.
  { rewrite length_drop. unfold q. lia. }
  rewrite <-(take_drop (q * bs) good) at 1.
  rewrite fmap_app, <-app_assoc.
  rewrite (chunks_app_whole bs q) by (by rewrite ?length_fmap).
  rewrite (chunks_nonempty bs (_ ++ bad :: rest)) by (done || by destruct (_ <$> _)).
  rewrite take_app_ge by (rewrite length_fmap; lia).
  rewrite length_fmap.
  destruct (bs - length (drop (q * bs) good)) as [|k] eqn:Hk; [lia|].
  rewrite firstn_cons.
  rewrite chunks_fmap by done.
  erewrite M_bind_Raise; [reflexivity|].
  assert (∀ cs : list (list string),
            (λ c, Forward (truncated_ids m <$> c)) <$> cs
            = concat ((λ c, [Forward (truncated_ids m <$> c)]) <$> cs) ++ [])
    as ->.
  { intros cs. rewrite app_nil_r. induction cs as [|c cs IH]; [done|].
    rewrite !fmap_cons. cbn [concat]. by rewrite IH. }
  apply (mapM_trace_Raise _ _ _ (λ c, infer m <$> c)).
  - apply Forall_forall. intros c _ tr'. by apply (run_chunk_strings m K).
  - intros tr'. rewrite app_nil_r. by apply run_chunk_malformed.
Qed.
End pipeline_malformed.

(** ** [predict], step by step *)

Lemma first_column_texts_Ok df texts :
  first_column_is df texts → first_column_texts df = Ok texts.
Proof.
  intros (c & rest & Hcols & Hfresh). unfold first_column_texts, columns.
  rewrite Hcols. simpl. unfold getitem. rewrite Hcols.
  rewrite filter_cons_True by done.
  assert (filter (λ c' : pyval * list pyval, c'.1 = c) rest = []) as ->; [|done].
  clear Hcols. induction rest as [|[c' cells] rest IH]; [done|].
  rewrite fmap_cons, not_elem_of_cons in Hfresh. destruct Hfresh as [Hne Hfresh].
  rewrite filter_cons_False by (intros Heq; apply Hne; by rewrite <-Heq).
  by apply IH.
Qed.

(** The one call [predict] makes once it has the texts and the pipeline. *)
Lemma predict_call ctx df w texts p :
  first_column_texts df = Ok texts →
  pipeline (self w) = Some p →
  predict ctx df w
  = (mkWorld (self w) (pipeline_calls w ++ [(texts, true, Some 8)])
       (p texts true (Some 8) (trace w)).1,
     (λ out, pd_Series (prediction_label <$> out))
       <$> (p texts true (Some 8) (trace w)).2).
Proof.
  intros Htexts Hp. unfold predict. rewrite Htexts.
  erewrite M_bind_Ok; [|reflexivity].
  erewrite M_bind_Ok; [|unfold get_pipeline; by rewrite Hp].
  unfold mbind, M_bind, call_pipeline.
  destruct (p texts true (Some 8) (trace w)) as [tr [out|e]]; done.
Qed.

(** Without a first column to read, nothing else happens. *)
Lemma predict_no_texts ctx df w e :
  first_column_texts df = Raise e → predict ctx df w = (w, Raise e).
Proof. intros Htexts. unfold predict. by rewrite Htexts. Qed.

Lemma predict_unloaded ctx df w texts :
  first_column_texts df = Ok texts →
  pipeline (self w) = None →
  predict ctx df w = (w, Raise (AttributeError "pipeline")).
Proof.
  intros Htexts Hp. unfold predict. rewrite Htexts.
  erewrite M_bind_Ok; [|reflexivity].
  erewrite M_bind_Raise; [done|]. unfold get_pipeline. by rewrite Hp.
Qed.

(** [predict] on a column of strings, for a loaded sound model. *)
Lemma predict_strings m K ctx df w ss :
  model_ok m K → loaded_from w m → first_column_is df (PyStr <$> ss) →
  predict ctx df w
  = (mkWorld (self w)
       (pipeline_calls w ++ [(PyStr <$> ss, true, Some 8)])
       (trace w ++ ((λ c, Forward (truncated_ids m <$> c)) <$> chunks 8 ss)),
     Ok (pd_Series (prediction_label <$> (infer m <$> ss)))).
Proof.
  intros Hok [dev Hp] Hdf%first_column_texts_Ok.
  rewrite (predict_call _ _ _ _ _ Hdf Hp).
  by rewrite (pipeline_call_strings m K Hok) by (done || simpl; lia).
Qed.

(** ** The small model is sound *)

Lemma sms_model_ok : model_ok sms_model 2.
Proof.
  split.
  - lia.
  - intros [|c ids]; [done|]. simpl. by case_bool_decide.
  - intros [|[|i]] Hi; [by vm_compute; eauto..|lia].
Defined.

Lemma loaded_world_loaded : loaded_from loaded_world sms_model.
Proof. by exists (-1)%Z. Defined.

(** [load_context] leaves the wrapper holding the pipeline of the artifact
    stored under ["pipeline"]. *)
Lemma load_context_loaded cuda ctx w m :
  artifacts ctx !! pipeline_artifact_name = Some m →
  loaded_from (load_context cuda ctx w).1 m
  ∧ (load_context cuda ctx w).2 = Ok ()
  ∧ trace (load_context cuda ctx w).1 = trace w.
Proof.
  intros Hm. unfold load_context.
  erewrite M_bind_Ok; [|unfold lift_result; by rewrite (subscript_Some _ _ _ m)].
  split; [|done]. by exists (if cuda then 0 else -1)%Z.
Qed.

Lemma text_frame_first_column texts : first_column_is (text_frame texts) texts.
Proof. exists (PyStr "text"), []. split; [done|]. by intros ?%elem_of_nil. Defined.

(** ** The scoring wrapper claims *)

Lemma predicted_labels_Forall2 m K ss :
  model_ok m K →
  Forall2 (λ t y, predicted_label m t = Ok y) ss
    (prediction_label <$> (infer m <$> ss)).
Proof.
  intros Hok. rewrite <-list_fmap_compose. apply Forall2_fmap_r.
  apply Forall_Forall2_diag, Forall_forall. intros t _.
  unfold predicted_label. by rewrite (classify_one_infer m K Hok).
Qed.

(** C1: on a column of text strings [predict] returns one label per text, in
    the order of the texts, each the predicted label of its text; the
    predictions of the pipeline are the same for every positive batch size,
    e.g. for the four sample messages in chunks of 2 and in one chunk of
    4. *)
Theorem predict_preserves_length_and_order :
  (∀ m K ctx df w ss,
     model_ok m K → loaded_from w m → first_column_is df (PyStr <$> ss) →
     ∃ w' out, predict ctx df w = (w', Ok out)
               ∧ length (s_values out) = length ss
               ∧ Forall2 (λ t y, predicted_label m t = Ok y) ss (s_values out)) ∧
  (∀ m K pl ss b1 b2 tr,
     model_ok m K → pipeline_model pl = m → 0 < b1 → 0 < b2 →
     (pipeline_call pl (PyStr <$> ss) true (Some b1) tr).2
     = (pipeline_call pl (PyStr <$> ss) true (Some b2) tr).2
     ∧ ∃ ys, labels_of (pipeline_call pl (PyStr <$> ss) true (Some b1) tr).2
             = Ok ys
             ∧ Forall2 (λ t y, predicted_label m t = Ok y) ss ys) ∧
  (labels_of (pipeline_call (sms_pipeline 2) sms_texts true None []).2
   = Ok ["spam"; "ham"; "spam"; "ham"]
   ∧ labels_of (pipeline_call (sms_pipeline 4) sms_texts true None []).2
     = Ok ["spam"; "ham"; "spam"; "ham"]
   ∧ length (pipeline_call (sms_pipeline 2) sms_texts true None []).1 = 2
   ∧ length (pipeline_call (sms_pipeline 4) sms_texts true None []).1 = 1).
Proof.
  split; [|split; [|by vm_compute]].
  - intros m K ctx df w ss Hok Hload Hdf.
    rewrite (predict_strings m K _ _ _ _ Hok Hload Hdf).
    eexists _, _. split; [done|]. simpl. split.
    + by rewrite !length_fmap.
    + by apply (predicted_labels_Forall2 m K).
  - intros m K pl ss b1 b2 tr Hok Hm Hb1 Hb2.
    rewrite !(pipeline_call_strings m K Hok) by done. simpl.
    split; [done|]. eexists. split; [done|].
    by apply (predicted_labels_Forall2 m K).
Qed.

Lemma predict_preserves_length_and_order_witness :
  ∃ w' out,
    predict sms_context (text_frame sms_texts) loaded_world = (w', Ok out)
    ∧ length (s_values out) = 4
    ∧ Forall2 (λ t y, predicted_label sms_model t = Ok y)
        ["free money now"; "see you at 5pm"; "win a prize"; "lunch tomorrow?"]
        (s_values out).
Proof.
  apply (proj1 predict_preserves_length_and_order sms_model 2 sms_context
           (text_frame sms_texts) loaded_world
           ["free money now"; "see you at 5pm"; "win a prize"; "lunch tomorrow?"]).
  - exact sms_model_ok.
  - exact loaded_world_loaded.
  - exact (text_frame_first_column sms_texts).
Defined.

(** C5: on an empty column of texts [predict] returns the empty series, and
    the trace of model invocations is unchanged: the model is not invoked. *)
Theorem predict_empty m ctx df w :
  loaded_from w m → first_column_is df [] →
  predict ctx df w
  = (mkWorld (self w) (pipeline_calls w ++ [([], true, Some 8)]) (trace w),
     Ok (pd_Series []))
  ∧ trace (predict ctx df w).1 = trace w.
Proof.
  intros [dev Hp] Hdf%first_column_texts_Ok.
  rewrite (predict_call _ _ _ _ _ Hdf Hp). by vm_compute.
Qed.

Lemma predict_empty_witness :
  predict sms_context (text_frame []) loaded_world
  = (mkWorld (self loaded_world)
       (pipeline_calls loaded_world ++ [([], true, Some 8)]) (trace loaded_world),
     Ok (pd_Series []))
  ∧ trace (predict sms_context (text_frame []) loaded_world).1
    = trace loaded_world.
Proof.
  apply (predict_empty sms_model sms_context (text_frame []) loaded_world).
  - exact loaded_world_loaded.
  - exact (text_frame_first_column []).
Defined.

(** C6, as stated, fails: with a non-string cell in the second chunk, the
    first chunk has already been run through the model when the call
    raises. *)
Lemma malformed_rejected_before_model_counterexample :
  ¬ (∀ m K ctx df w texts,
       model_ok m K → loaded_from w m → first_column_is df texts →
       Exists malformed texts →
       ∃ w' e, predict ctx df w = (w', Raise e) ∧ trace w' = trace w).
Proof.
  intros Hclaim.
  destruct (Hclaim sms_model 2 sms_context (text_frame nine_cells)
              loaded_world nine_cells sms_model_ok loaded_world_loaded
              (text_frame_first_column nine_cells))
    as (w' & e & Hp & Htr).
  { unfold nine_cells. rewrite !Exists_app. right. right. by left. }
  assert (length (trace (predict sms_context (text_frame nine_cells)
                           loaded_world).1) = 1) as Hlen by (by vm_compute).
  rewrite Hp in Hlen. simpl in Hlen. rewrite Htr in Hlen. by vm_compute in Hlen.
Qed.

(** C6, amended: on a column of text strings [predict] never raises; on a
    column with a non-string cell [predict] makes no check of its own: the
    tokenizer raises when the chunk of 8 holding the first such cell is
    prepared, every whole chunk before it has been run through the model,
    and no series is returned; when the cell is among the first 8, the model
    is not invoked at all. *)
Theorem predict_text_total_malformed_raises m K ctx w :
  model_ok m K → loaded_from w m →
  (∀ df ss, first_column_is df (PyStr <$> ss) →
     ∃ w' out, predict ctx df w = (w', Ok out)) ∧
  (∀ df good bad rest,
     malformed bad → first_column_is df ((PyStr <$> good) ++ bad :: rest) →
     predict ctx df w
     = (mkWorld (self w)
          (pipeline_calls w ++ [((PyStr <$> good) ++ bad :: rest, true, Some 8)])
          (trace w ++ ((λ c, Forward (truncated_ids m <$> c))
                         <$> chunks 8 (take (length good / 8 * 8) good))),
        Raise ValueError)
     ∧ (length good < 8 → trace (predict ctx df w).1 = trace w)).
Proof.
  intros Hok Hload. split.
  - intros df ss Hdf. rewrite (predict_strings m K _ _ _ _ Hok Hload Hdf).
    by eexists _, _.
  - intros df good bad rest Hbad Hdf%first_column_texts_Ok.
    destruct Hload as [dev Hp].
    rewrite (predict_call _ _ _ _ _ Hdf Hp).
    rewrite (pipeline_call_malformed m K Hok) by (done || simpl; lia).
    change (effective_batch_size _ (Some 8)) with 8.
    split; [done|]. intros Hlt. cbn [fst trace].
    rewrite Nat.div_small by done. by rewrite Nat.mul_0_l, app_nil_r.
Qed.

Lemma predict_text_total_malformed_raises_witness :
  (∃ w' out, predict sms_context (text_frame sms_texts) loaded_world
             = (w', Ok out)) ∧
  (predict sms_context (text_frame nine_cells) loaded_world).2
  = Raise ValueError.
Proof.
  destruct (predict_text_total_malformed_raises sms_model 2 sms_context
              loaded_world sms_model_ok loaded_world_loaded) as [Htext Hbad].
  split.
  - apply (Htext (text_frame sms_texts)
             ["free money now"; "see you at 5pm"; "win a prize";
              "lunch tomorrow?"]).
    exact (text_frame_first_column sms_texts).
  - destruct (Hbad (text_frame nine_cells)
             ["free money now"; "see you at 5pm"; "win a prize";
              "lunch tomorrow?"; "free money now"; "see you at 5pm";
              "win a prize"; "lunch tomorrow?"] PyNone [] I
             (text_frame_first_column nine_cells)) as [-> _].
    reflexivity.
Defined.

Lemma pipeline_call_overlong m pl t tr :
  pipeline_model pl = m →
  model_max_length m < length (tokenize m t) →
  pipeline_call pl [PyStr t] false (Some 8) tr
  = (tr ++ [Forward [tokenize m t]], Raise RuntimeError).
Proof.
  intros <- Hlong. unfold pipeline_call.
  change (effective_batch_size pl (Some 8)) with 8. cbv zeta iota.
  change (chunks 8 [PyStr t]) with [[PyStr t]].
  erewrite M_bind_Raise; [reflexivity|].
  rewrite mapM_M_cons. erewrite M_bind_Raise; [reflexivity|].
  unfold run_chunk.
  change (mapM (tokenizer_call (pipeline_model pl) false) [PyStr t])
    with (Ok (A:=list (list nat)) [tokenize (pipeline_model pl) t]).
  erewrite M_bind_Ok; [|reflexivity].
  erewrite M_bind_Raise; [reflexivity|].
  unfold forward. cbn [forallb].
  by rewrite (proj2 (Nat.leb_gt _ _) Hlong).
Qed.

(** C7: a text whose token sequence exceeds the model's maximum length is
    cut to that length, not refused: [predict] still returns one label per
    text, the label of the truncated sequence, and the model only ever
    receives sequences within the maximum.  The same text passed without
    truncation does not come back with a prediction: the call raises. *)
Theorem predict_truncates_long_text m K ctx df w ss :
  model_ok m K → loaded_from w m → first_column_is df (PyStr <$> ss) →
  ∃ w' out,
    predict ctx df w = (w', Ok out)
    ∧ length (s_values out) = length ss
    ∧ (∀ i t, ss !! i = Some t →
         model_max_length m < length (tokenize m t) →
         length (truncated_ids m t) = model_max_length m
         ∧ ∃ y, s_values out !! i = Some y
                ∧ prediction_label
                    <$> postprocess m (class_probs m (truncated_ids m t))
                  = Ok y)
    ∧ trace w'
      = trace w ++ ((λ c, Forward (truncated_ids m <$> c)) <$> chunks 8 ss)
    ∧ Forall (λ ids, length ids ≤ model_max_length m) (truncated_ids m <$> ss)
    ∧ (∀ pl t tr, pipeline_model pl = m →
         model_max_length m < length (tokenize m t) →
         ∃ e, (pipeline_call pl [PyStr t] false (Some 8) tr).2 = Raise e).
Proof.
  intros Hok Hload Hdf.
  rewrite (predict_strings m K _ _ _ _ Hok Hload Hdf).
  eexists _, _. split; [done|]. cbn [s_values pd_Series trace].
  split; [by rewrite !length_fmap|]. split; [|split; [done|split]].
  - intros i t Hi Hlong. split.
    { unfold truncated_ids. rewrite length_take. lia. }
    exists (prediction_label (infer m t)). split.
    + by rewrite !list_lookup_fmap, Hi.
    + pose proof (classify_one_infer m K Hok t) as Hc.
      unfold classify_one in Hc. unfold truncated_ids. by rewrite Hc.
  - apply Forall_fmap, Forall_forall. intros t _. simpl.
    unfold truncated_ids. rewrite length_take. lia.
  - intros pl t tr Hm Hlong. eexists.
    by rewrite (pipeline_call_overlong m).
Qed.

Lemma predict_truncates_long_text_witness :
  ∃ w' out,
    predict sms_context (text_frame [PyStr long_text]) loaded_world
    = (w', Ok out)
    ∧ length (s_values out) = 1
    ∧ length (truncated_ids sms_model long_text) = 16
    ∧ ∃ y, s_values out !! 0 = Some y.
Proof.
  destruct (predict_truncates_long_text sms_model 2 sms_context
              (text_frame [PyStr long_text]) loaded_world [long_text]
              sms_model_ok loaded_world_loaded
              (text_frame_first_column [PyStr long_text]))
    as (w' & out & Hp & Hlen & Hlong & _).
  exists w', out. split; [exact Hp|]. split; [exact Hlen|].
  destruct (Hlong 0 long_text eq_refl) as (Hcut & y & Hy & _).
  { vm_compute. lia. }
  split; [exact Hcut|]. by exists y.
Defined.

(** ** The wrapper object across calls *)

Lemma appends_lift_result {A} (r : result A) : appends (lift_result r).
Proof. exists [], r. intros tr. by rewrite app_nil_r. Qed.

Lemma appends_bind {A B} (c : M Trace A) (f : A → M Trace B) :
  appends c → (∀ a, appends (f a)) → appends (c ≫= f).
Proof.
  intros (evs & r & Hc) Hf. destruct r as [a|e].
  - destruct (Hf a) as (evs' & r' & Hfa). exists (evs ++ evs'), r'.
    intros tr. rewrite (M_bind_Ok _ _ _ _ _ (Hc tr)), Hfa. by rewrite app_assoc.
  - exists evs, (Raise e). intros tr. by rewrite (M_bind_Raise _ _ _ _ _ (Hc tr)).
Qed.

Lemma appends_mret {A} (a : A) : appends (mret a).
Proof. exists [], (Ok a). intros tr. by rewrite app_nil_r. Qed.

Lemma appends_mapM {A B} (f : A → M Trace B) (l : list A) :
  (∀ x, appends (f x)) → appends (mapM f l).
Proof.
  intros Hf. induction l as [|x l IH]; [apply appends_mret|].
  rewrite mapM_M_cons. apply appends_bind; [done|]. intros y.
  apply appends_bind; [done|]. intros k. apply appends_mret.
Qed.

Lemma appends_forward m batch : appends (forward m batch).
Proof. by eexists _, _. Qed.

Lemma appends_run_chunk m truncation chunk :
  appends (run_chunk m truncation chunk).
Proof.
  unfold run_chunk. apply appends_bind; [apply appends_lift_result|].
  intros batch. apply appends_bind; [apply appends_forward|].
  intros outs. apply appends_lift_result.
Qed.

(** The pipeline only appends model invocations, and what it returns does
    not depend on the invocations made before. *)
Lemma appends_pipeline_call pl inputs truncation batch_size :
  appends (pipeline_call pl inputs truncation batch_size).
Proof.
  unfold pipeline_call.
  destruct (effective_batch_size pl batch_size); [apply appends_lift_result|].
  apply appends_bind; [|intros; apply appends_mret].
  apply appends_mapM. intros c. apply appends_run_chunk.
Qed.

Lemma predict_self ctx df w : self (predict ctx df w).1 = self w.
Proof.
  destruct (first_column_texts df) as [texts|e] eqn:Htexts.
  - destruct (pipeline (self w)) as [p|] eqn:Hp.
    + by rewrite (predict_call _ _ _ _ _ Htexts Hp).
    + by rewrite (predict_unloaded _ _ _ _ Htexts Hp).
  - by rewrite (predict_no_texts _ _ _ _ Htexts).
Qed.

Lemma predict_pipeline_calls ctx df w :
  ∃ new, pipeline_calls (predict ctx df w).1 = pipeline_calls w ++ new
         ∧ length new ≤ 1
         ∧ Forall (λ c, c.1.2 = true ∧ c.2 = Some 8) new.
Proof.
  destruct (first_column_texts df) as [texts|e] eqn:Htexts.
  - destruct (pipeline (self w)) as [p|] eqn:Hp.
    + rewrite (predict_call _ _ _ _ _ Htexts Hp).
      exists [(texts, true, Some 8)]. split; [done|]. split; [simpl; lia|].
      by apply Forall_singleton.
    + rewrite (predict_unloaded _ _ _ _ Htexts Hp).
      exists []. rewrite app_nil_r. split; [done|]. split; [simpl; lia|].
      by apply Forall_nil.
  - rewrite (predict_no_texts _ _ _ _ Htexts).
    exists []. rewrite app_nil_r. split; [done|]. split; [simpl; lia|].
    by apply Forall_nil.
Qed.

Lemma serve_snoc ctx dfs df w :
  serve ctx (dfs ++ [df]) w = (predict ctx df (serve ctx dfs w)).1.
Proof. unfold serve. by rewrite foldl_snoc. Qed.

(** One call after the other, when every dataframe has a readable first
    column and the wrapper holds a pipeline. *)
Lemma serve_calls ctx dfs textss w :
  is_Some (pipeline (self w)) →
  Forall2 (λ df texts, first_column_texts df = Ok texts) dfs textss →
  self (serve ctx dfs w) = self w
  ∧ pipeline_calls (serve ctx dfs w)
    = pipeline_calls w ++ ((λ texts, (texts, true, Some 8)) <$> textss).
Proof.
  intros Hsome Hall. revert w Hsome.
  induction Hall as [|df texts dfs textss Hdf _ IH]; intros w [p Hp].
  { split; [done|]. by rewrite app_nil_r. }
  change (serve ctx (df :: dfs) w)
    with (serve ctx dfs (predict ctx df w).1).
  destruct (IH (predict ctx df w).1) as [Hself Hcalls].
  { rewrite predict_self. by exists p. }
  rewrite Hself, Hcalls, predict_self.
  rewrite (predict_call _ _ _ _ _ Hdf Hp). cbn [fst pipeline_calls].
  split; [done|]. by rewrite fmap_cons, <-app_assoc.
Qed.

(** C8: [predict] takes the context and the input only.  A call that reaches
    the pipeline makes exactly one call to it, with the texts,
    [truncation=True] and [batch_size=8], and leaves the wrapper object as
    it was; over a session there is one such call per dataframe, each with
    batch size 8.  Whatever batch size the pipeline object was constructed
    with, the texts are run in chunks of 8; the pipeline constructed with
    [batch_size=8] also runs a call that names no batch size in chunks of 8.
    What a call returns does not depend on the calls made before. *)
Theorem batch_size_fixed_and_stateless (ctx : PythonModelContext) :
  (∀ df w texts p,
     first_column_texts df = Ok texts → pipeline (self w) = Some p →
     predict ctx df w
     = (mkWorld (self w) (pipeline_calls w ++ [(texts, true, Some 8)])
          (p texts true (Some 8) (trace w)).1,
        (λ out, pd_Series (prediction_label <$> out))
          <$> (p texts true (Some 8) (trace w)).2)) ∧
  (∀ dfs textss w,
     is_Some (pipeline (self w)) →
     Forall2 (λ df texts, first_column_texts df = Ok texts) dfs textss →
     self (serve ctx dfs w) = self w
     ∧ pipeline_calls (serve ctx dfs w)
       = pipeline_calls w ++ ((λ texts, (texts, true, Some 8)) <$> textss)) ∧
  (∀ dfs w, self (serve ctx dfs w) = self w) ∧
  (∀ m K pl df w ss,
     model_ok m K → pipeline_model pl = m →
     pipeline (self w) = Some (pipeline_call pl) →
     first_column_is df (PyStr <$> ss) →
     trace (predict ctx df w).1
     = trace w ++ ((λ c, Forward (truncated_ids m <$> c)) <$> chunks 8 ss)) ∧
  (∀ m K dev ss tr,
     model_ok m K →
     pipeline_call (pipe m dev) (PyStr <$> ss) true None tr
     = (tr ++ ((λ c, Forward (truncated_ids m <$> c)) <$> chunks 8 ss),
        Ok (infer m <$> ss))) ∧
  (∀ m df w1 w2,
     loaded_from w1 m → loaded_from w2 m →
     (predict ctx df w1).2 = (predict ctx df w2).2).
Proof.
  split; [|split; [|split; [|split; [|split]]]].
  - intros df w texts p. apply predict_call.
  - intros dfs textss w. apply serve_calls.
  - intros dfs w. induction dfs as [|df dfs IH] using rev_ind; [done|].
    by rewrite serve_snoc, predict_self.
  - intros m K pl df w ss Hok Hm Hp Hdf%first_column_texts_Ok.
    rewrite (predict_call _ _ _ _ _ Hdf Hp). cbn [fst trace].
    by rewrite (pipeline_call_strings m K Hok) by (done || simpl; lia).
  - intros m K dev ss tr Hok.
    by rewrite (pipeline_call_strings m K Hok) by (done || simpl; lia).
  - intros m df w1 w2 [dev1 Hp1] [dev2 Hp2].
    destruct (first_column_texts df) as [texts|e] eqn:Htexts.
    + rewrite (predict_call _ _ _ _ _ Htexts Hp1).
      rewrite (predict_call _ _ _ _ _ Htexts Hp2). cbn [snd].
      destruct (appends_pipeline_call
                  (transformers_pipeline "text-classification" m None dev1)
                  texts true (Some 8)) as (evs & r & Hr).
      change (pipeline_call
                (transformers_pipeline "text-classification" m None dev2))
        with (pipeline_call
                (transformers_pipeline "text-classification" m None dev1)).
      by rewrite !Hr.
    + by rewrite !(predict_no_texts _ _ _ _ Htexts).
Qed.

Lemma batch_size_fixed_and_stateless_witness :
  self (serve sms_context [text_frame sms_texts; text_frame nine_cells]
          loaded_world)
  = self loaded_world
  ∧ pipeline_calls
      (serve sms_context [text_frame sms_texts; text_frame nine_cells]
         loaded_world)
    = pipeline_calls loaded_world
        ++ [(sms_texts, true, Some 8); (nine_cells, true, Some 8)].
Proof.
  apply (proj1 (proj2 (batch_size_fixed_and_stateless sms_context))
           [text_frame sms_texts; text_frame nine_cells]
           [sms_texts; nine_cells] loaded_world).
  - eexists. reflexivity.
  - repeat constructor.
Defined.

(** C10, as stated, fails: a second column carrying the label of the first
    is not ignored; [model_input[label]] is then a dataframe, which has no
    [to_list]. *)
Lemma predict_ignores_other_columns_counterexample :
  ¬ (∀ ctx df1 df2 c1 c2 texts rest1 rest2 w,
       df_columns df1 = (c1, texts) :: rest1 →
       df_columns df2 = (c2, texts) :: rest2 →
       predict ctx df1 w = predict ctx df2 w).
Proof.
  intros Hclaim.
  specialize (Hclaim sms_context (text_frame [PyStr "win a prize"]) twin_frame
                _ _ _ _ _ loaded_world eq_refl eq_refl).
  apply (f_equal snd) in Hclaim. vm_compute in Hclaim. discriminate.
Qed.

(** C10, amended: for a dataframe with at least one column whose first
    column's label is carried by no other column, [predict] reads the cells
    of the first column only: two such dataframes with the same cells there,
    whatever their index, their column labels and their other columns, give
    the same outcome; the pipeline is handed exactly those cells, and a
    returned series holds the labels of its predictions under the index
    0, 1, 2, ... *)
Theorem predict_reads_first_column ctx df1 df2 texts w :
  first_column_is df1 texts → first_column_is df2 texts →
  predict ctx df1 w = predict ctx df2 w
  ∧ (∀ w' out, predict ctx df1 w = (w', Ok out) →
       s_index out = range_index (length (s_values out))
       ∧ pipeline_calls w' = pipeline_calls w ++ [(texts, true, Some 8)]
       ∧ ∃ p preds, pipeline (self w) = Some p
                    ∧ (p texts true (Some 8) (trace w)).2 = Ok preds
                    ∧ s_values out = prediction_label <$> preds).
Proof.
  intros Hdf1%first_column_texts_Ok Hdf2%first_column_texts_Ok.
  destruct (pipeline (self w)) as [p|] eqn:Hp.
  - rewrite (predict_call _ _ _ _ _ Hdf1 Hp), (predict_call _ _ _ _ _ Hdf2 Hp).
    split; [done|]. intros w' out.
    destruct (p texts true (Some 8) (trace w)) as [tr [preds|e]] eqn:Hcall;
      [|done].
    intros [= <- <-]. split; [done|]. split; [done|].
    exists p, preds. by rewrite Hcall.
  - rewrite (predict_unloaded _ _ _ _ Hdf1 Hp), (predict_unloaded _ _ _ _ Hdf2 Hp).
    split; [done|]. by intros w' out.
Qed.

Lemma predict_reads_first_column_witness :
  predict sms_context (text_frame sms_texts) loaded_world
  = predict sms_context
      (mkDataFrame [PyStr "a"; PyStr "b"; PyStr "c"; PyStr "d"]
         [(PyInt 0, sms_texts); (PyStr "label", [PyNone; PyNone; PyNone; PyNone])])
      loaded_world
  ∧ (∀ w' out,
       predict sms_context (text_frame sms_texts) loaded_world = (w', Ok out) →
       s_index out = range_index (length (s_values out))
       ∧ pipeline_calls w'
         = pipeline_calls loaded_world ++ [(sms_texts, true, Some 8)]
       ∧ ∃ p preds, pipeline (self loaded_world) = Some p
                    ∧ (p sms_texts true (Some 8) (trace loaded_world)).2
                      = Ok preds
                    ∧ s_values out = prediction_label <$> preds).
Proof.
  apply (predict_reads_first_column sms_context (text_frame sms_texts)
           (mkDataFrame [PyStr "a"; PyStr "b"; PyStr "c"; PyStr "d"]
              [(PyInt 0, sms_texts);
               (PyStr "label", [PyNone; PyNone; PyNone; PyNone])])
           sms_texts loaded_world).
  - exact (text_frame_first_column sms_texts).
  - exists (PyInt 0), [(PyStr "label", [PyNone; PyNone; PyNone; PyNone])].
    split; [reflexivity|]. simpl. intros Hin.
    apply list_elem_of_singleton in Hin. discriminate.
Defined.

(** * Further properties of the notebook code *)

(** ** The two tables, with or without repeated labels *)

(** Every enumerated label has a last position. *)
Lemma last_position (l : list string) (s : string) :
  s ∈ l → ∃ i, l !! i = Some s ∧ ∀ j, i < j → l !! j ≠ Some s.
Proof.
  induction l as [|x l IH] using rev_ind; [by intros ?%elem_of_nil|].
  intros Hin. destruct (decide (x = s)) as [->|Hne].
  - exists (length l). split.
    + by rewrite lookup_app_r, Nat.sub_diag by lia.
    + intros j Hj. rewrite lookup_ge_None_2; [done|].
      rewrite length_app. simpl. lia.
  - apply elem_of_app in Hin as [Hin|Hin%list_elem_of_singleton]; [|done].
    destruct (IH Hin) as (i & Hi & Hlast). exists i.
    pose proof (lookup_lt_Some _ _ _ Hi) as Hlt.
    split; [by rewrite lookup_app_l|].
    intros j Hj. destruct (decide (j < length l)) as [Hjl|Hjl].
    + rewrite lookup_app_l by lia. by apply Hlast.
    + rewrite lookup_app_r by lia.
      destruct (j - length l) as [|n]; [by intros [= ?]|done].
Qed.

(** X1: whatever the enumeration, repeated labels or not, [id2label] has
    exactly the keys 0..K-1 and maps each to the label enumerated at that
    position. *)
Theorem id2label_positions (labels : list Row) :
  (∀ i, id2label labels !! i = (label <$> labels) !! i)
  ∧ dom (id2label labels) = set_seq 0 (length labels)
  ∧ size (id2label labels) = length labels.
Proof.
  assert (∀ i, id2label labels !! i = (label <$> labels) !! i) as Hid.
  { intros i. by rewrite id2label_lookup, list_lookup_fmap. }
  assert (dom (id2label labels) = set_seq (C:=gset nat) 0 (length labels))
    as Hdom.
  { apply set_eq. intros i. rewrite elem_of_dom, Hid, elem_of_set_seq.
    rewrite lookup_lt_is_Some, length_fmap. lia. }
  split; [done|]. split; [done|].
  by rewrite <-size_dom, Hdom, size_set_seq.
Qed.

(** X2: when a label is enumerated more than once, the later position
    overwrites the earlier: [label2id] maps every label to the last position
    where it was enumerated; mapping that id back through [id2label] gives
    the label again, for every enumerated label. *)
Theorem label2id_last_wins (labels : list Row) :
  (∀ s i, label2id labels !! s = Some i ↔
          (label <$> labels) !! i = Some s
          ∧ ∀ j, i < j → (label <$> labels) !! j ≠ Some s)
  ∧ (∀ s, s ∈ label <$> labels →
          ∃ i, label2id labels !! s = Some i ∧ id2label labels !! i = Some s).
Proof.
  split; [apply label2id_lookup_last|].
  intros s (i & Hi & Hlast)%last_position. exists i. split.
  - by apply label2id_lookup_last.
  - by rewrite id2label_lookup, <-list_lookup_fmap.
Qed.

Lemma label2id_size (labels : list Row) :
  size (label2id labels) ≤ length labels
  ∧ (size (label2id labels) = length labels ↔ NoDup (label <$> labels)).
Proof.
  induction labels as [|r labels [IHle IHiff]] using rev_ind.
  { split; [done|]. split; [intros _; apply NoDup_nil_2|done]. }
  rewrite label2id_snoc, fmap_app, length_app, NoDup_app. cbn [fmap list_fmap length].
  destruct (label2id labels !! label r) as [v|] eqn:Hr.
  - rewrite map_size_insert_Some by (by eexists). split; [lia|].
    split; [lia|]. intros (_ & Hfresh & _). exfalso.
    apply (Hfresh (label r)); [|by apply list_elem_of_singleton].
    apply label2id_is_Some. by eexists.
  - rewrite map_size_insert_None by done. split; [lia|].
    apply label2id_None in Hr. split.
    + intros Hsize. split; [apply IHiff; lia|]. split; [|apply NoDup_singleton].
      intros s Hs ->%list_elem_of_singleton. done.
    + intros (Hnd & _ & _). apply IHiff in Hnd. lia.
Qed.

(** X3: the keys of [label2id] are exactly the enumerated labels; it has as
    many entries as there are positions exactly when no label was enumerated
    twice, and fewer otherwise. *)
Theorem label2id_keys (labels : list Row) :
  dom (label2id labels) = list_to_set (label <$> labels)
  ∧ size (label2id labels) ≤ length labels
  ∧ (size (label2id labels) = length labels ↔ NoDup (label <$> labels)).
Proof.
  split; [|apply label2id_size].
  apply set_eq. intros s.
  by rewrite elem_of_dom, label2id_is_Some, elem_of_list_to_set.
Qed.

Lemma label2id_keys_witness :
  size (label2id sms_labels) = length sms_labels.
Proof.
  apply (proj2 (proj2 (label2id_keys sms_labels))). compute_done.
Defined.

(** ** [replace_labels_with_ids] *)

Section mapM_result_inversion.
Context {A B : Type}.
Implicit Types (f : A → result B) (l : list A) (k : list B).

Lemma mapM_result_Forall2 f l k :
  mapM f l = Ok k ↔ Forall2 (λ x y, f x = Ok y) l k.
Proof.
  split.
  - revert k. induction l as [|x l IH]; intros k.
    + intros [= <-]. constructor.
    + rewrite mapM_result_cons. destruct (f x) as [y|] eqn:Hx; [|done].
      simpl. destruct (mapM f l) as [k'|]; [|done]. simpl.
      intros [= <-]. constructor; [done|]. by apply IH.
  - induction 1 as [|x y l k Hx _ IH]; [done|].
    by rewrite mapM_result_cons, Hx, IH.
Qed.

Lemma mapM_result_is_Ok f l :
  is_Ok (mapM f l) ↔ Forall (λ x, is_Ok (f x)) l.
Proof.
  split.
  - intros [k Hk%mapM_result_Forall2].
    induction Hk as [|x y l k Hx _ IH]; constructor; [by exists y|done].
  - induction 1 as [|x l [y Hx] _ [k IH]]; [by exists []|].
    exists (y :: k). by rewrite mapM_result_cons, Hx, IH.
Qed.

Lemma mapM_result_app f l1 l2 :
  mapM f (l1 ++ l2) = k1 ← mapM f l1; k2 ← mapM f l2; mret (k1 ++ k2).
Proof.
  induction l1 as [|x l1 IH].
  - rewrite app_nil_l, mapM_result_nil. simpl. by destruct (mapM f l2).
  - rewrite <-app_comm_cons, !mapM_result_cons, IH.
    destruct (f x) as [y|]; [|done]. simpl.
    destruct (mapM f l1) as [k1|]; [|done]. simpl.
    by destruct (mapM f l2).
Qed.
End mapM_result_inversion.

Lemma is_Ok_fmap {A B} (g : A → B) (r : result A) :
  is_Ok (g <$> r) ↔ is_Ok r.
Proof.
  destruct r as [a|e]; split; intros [? ?]; try done.
  - by exists a.
  - by exists (g a).
Qed.

(** X4: whatever the enumeration, when encoding succeeds every id is a
    position of the enumeration (below K), there is one id per label, and
    decoding the ids gives the labels back: the round trip does not need
    distinct labels. *)
Theorem encode_ids_in_range (labels : list Row) (ls : list string)
    (ids : list nat) :
  encode (build labels) ls = Ok ids →
  length ids = length ls
  ∧ Forall (λ i, i < length labels) ids
  ∧ decode (build labels) ids = Ok ls.
Proof.
  rewrite encode_unfold. simpl. intros Hids%mapM_result_Forall2.
  assert (Forall2 (λ s i, (label <$> labels) !! i = Some s) ls ids) as Hpos.
  { eapply Forall2_impl; [exact Hids|]. simpl. intros s i. unfold subscript.
    destruct (label2id labels !! s) as [i'|] eqn:Hs; [|done].
    intros [= <-]. by apply label2id_lookup_last in Hs as [? _]. }
  split; [symmetry; by eapply Forall2_length|]. split.
  - clear Hids. induction Hpos as [|s i ls ids Hi _ IH]; constructor; [|done].
    apply lookup_lt_Some in Hi. by rewrite length_fmap in Hi.
  - unfold decode. apply mapM_result_Forall2. simpl.
    apply Forall2_flip. eapply Forall2_impl; [exact Hpos|]. simpl.
    intros s i Hi. apply subscript_Some.
    by rewrite id2label_lookup, <-list_lookup_fmap.
Qed.

Lemma encode_ids_in_range_witness :
  length [2; 1; 2] = length ["ham"; "spam"; "ham"]
  ∧ Forall (λ i, i < length ungrouped_labels) [2; 1; 2]
  ∧ decode (build ungrouped_labels) [2; 1; 2] = Ok ["ham"; "spam"; "ham"].
Proof.
  apply (encode_ids_in_range ungrouped_labels ["ham"; "spam"; "ham"] [2; 1; 2]).
  vm_compute. reflexivity.
Defined.

(** X5: for any table, [replace_labels_with_ids] succeeds exactly when every
    value of the series is a key of the table; the series it returns keeps
    the index of its argument and holds, position by position, the id the
    table gives to the label there. *)
Theorem replace_labels_with_ids_Ok (d : gmap string nat) (ser : Series string) :
  (is_Ok (replace_labels_with_ids d ser)
   ↔ Forall (λ x, is_Some (d !! x)) (s_values ser))
  ∧ (∀ out, replace_labels_with_ids d ser = Ok out →
       s_index out = s_index ser
       ∧ Forall2 (λ x i, d !! x = Some i) (s_values ser) (s_values out)).
Proof.
  rewrite replace_labels_with_ids_unfold. split.
  - rewrite is_Ok_fmap, mapM_result_is_Ok. apply Forall_iff.
    intros x. unfold subscript. destruct (d !! x) as [i|].
    + split; intros _; [by exists i|by exists i].
    + split; [by intros [? ?]|by intros [? ?]].
  - intros out. destruct (mapM _ (s_values ser)) as [k|e] eqn:Hk; [|done].
    intros [= <-]. split; [done|]. simpl.
    apply mapM_result_Forall2 in Hk.
    eapply Forall2_impl; [exact Hk|]. simpl. intros x i. unfold subscript.
    destruct (d !! x); [|done]. by intros [= ->].
Qed.

Lemma Series_concat_cons {A} (b : Series A) (batches : list (Series A)) :
  Series_concat (b :: batches)
  = mkSeries (s_index b ++ s_index (Series_concat batches))
      (s_values b ++ s_values (Series_concat batches)).
Proof. reflexivity. Qed.

(** X6: applied batch by batch, [replace_labels_with_ids] gives, once the
    batches are concatenated, what it gives on the concatenated column: the
    same series when every batch succeeds, the same exception otherwise. *)
Theorem replace_labels_with_ids_batches (d : gmap string nat)
    (batches : list (Series string)) :
  Series_concat <$> mapM (replace_labels_with_ids d) batches
  = replace_labels_with_ids d (Series_concat batches).
Proof.
  induction batches as [|b batches IH]; [done|].
  rewrite mapM_result_cons, Series_concat_cons.
  rewrite !replace_labels_with_ids_unfold in *.
  cbn [s_index s_values]. rewrite mapM_result_app.
  destruct (mapM (subscript PyStr d) (s_values b)) as [k1|e1]; [|done].
  destruct (mapM (replace_labels_with_ids d) batches) as [outs|e];
    destruct (mapM (subscript PyStr d) (s_values (Series_concat batches)))
      as [k2|e2]; simpl in *; [|done|done|by injection IH as ->].
  rewrite Series_concat_cons. unfold Series_concat in IH |- *.
  simpl. injection IH as Hidx Hval. by rewrite Hidx, Hval.
Qed.

Lemma label2id_last_wins_witness :
  ∃ i, label2id ungrouped_labels !! "ham" = Some i
       ∧ id2label ungrouped_labels !! i = Some "ham".
Proof.
  apply (proj2 (label2id_last_wins ungrouped_labels) "ham"). compute_done.
Defined.

Lemma replace_labels_with_ids_Ok_witness :
  s_index (mkSeries [PyStr "a"; PyStr "b"] [1; 0]) = [PyStr "a"; PyStr "b"]
  ∧ Forall2 (λ x i, label2id sms_labels !! x = Some i) ["spam"; "ham"] [1; 0].
Proof.
  apply (proj2 (replace_labels_with_ids_Ok (label2id sms_labels)
                  (mkSeries [PyStr "a"; PyStr "b"] ["spam"; "ham"]))
           (mkSeries [PyStr "a"; PyStr "b"] [1; 0])).
  vm_compute. reflexivity.
Defined.

(** ** [predict] and [load_context]: failures and composition *)

Lemma getitem_repeated_label df c cells rest :
  df_columns df = (c, cells) :: rest → c ∈ rest.*1 →
  ∃ cols, getitem df c = Ok (IsFrame (mkDataFrame (df_index df) cols))
          ∧ cols ≠ [] ∧ Forall (λ col, col.1 = c) cols.
Proof.
  intros Hcols Hin. unfold getitem. rewrite Hcols.
  rewrite filter_cons_True by done.
  assert (Forall (λ col : pyval * list pyval, col.1 = c)
            (filter (λ c' : pyval * list pyval, c'.1 = c) rest)) as Hall.
  { apply Forall_forall. by intros col [? _]%list_elem_of_filter. }
  destruct (filter (λ c' : pyval * list pyval, c'.1 = c) rest)
    as [|c2 cs] eqn:Hrest.
  - exfalso. apply list_elem_of_fmap in Hin as ([c' cells'] & -> & Hin).
    by apply (filter_nil_not_elem_of _ _ _ Hrest) in Hin.
  - eexists. split; [done|]. split; [done|]. by constructor.
Qed.

(** X7: [predict] fails before it looks at the wrapper or calls anything
    when the first column cannot be read as a series.  A dataframe without
    columns raises [IndexError].  A dataframe in which another column
    carries the label of the first raises [AttributeError] for [to_list],
    except when that label is itself ["to_list"]: the attribute is then the
    selected columns, and calling them raises [TypeError].  The state is
    left as it was. *)
Theorem predict_unreadable_frame (ctx : PythonModelContext) (df : DataFrame)
    (w : World) :
  (df_columns df = [] → predict ctx df w = (w, Raise IndexError))
  ∧ (∀ c cells rest,
       df_columns df = (c, cells) :: rest → c ∈ rest.*1 →
       (c ≠ PyStr "to_list" →
        predict ctx df w = (w, Raise (AttributeError "to_list")))
       ∧ (c = PyStr "to_list" → predict ctx df w = (w, Raise TypeError))).
Proof.
  split.
  - intros Hcols. apply predict_no_texts.
    unfold first_column_texts, columns. by rewrite Hcols.
  - intros c cells rest Hcols Hin.
    destruct (getitem_repeated_label _ _ _ _ Hcols Hin)
      as (cols & Hframe & Hne & Hall).
    assert (first_column_texts df
            = if bool_decide (PyStr "to_list" ∈ cols.*1)
              then Raise TypeError else Raise (AttributeError "to_list"))
      as Htexts.
    { unfold first_column_texts, columns. rewrite Hcols. simpl.
      by rewrite Hframe. }
    split.
    + intros Hc. apply predict_no_texts. rewrite Htexts.
      rewrite bool_decide_eq_false_2; [done|].
      intros ([c' cells'] & Heq & Hcol)%list_elem_of_fmap.
      apply (proj1 (Forall_forall _ _) Hall) in Hcol. simpl in *. congruence.
    + intros ->. apply predict_no_texts. rewrite Htexts.
      rewrite bool_decide_eq_true_2; [done|].
      destruct cols as [|[c' cells'] cols]; [done|].
      apply Forall_cons in Hall as [Hc' _]. simpl in Hc'. subst c'.
      by left.
Qed.

Lemma predict_unreadable_frame_witness :
  predict sms_context (mkDataFrame [PyInt 0; PyInt 1] []) loaded_world
  = (loaded_world, Raise IndexError)
  ∧ predict sms_context twin_frame loaded_world
    = (loaded_world, Raise (AttributeError "to_list"))
  ∧ predict sms_context
      (mkDataFrame [PyInt 0]
         [(PyStr "to_list", [PyStr "hi"]); (PyStr "to_list", [PyStr "ho"])])
      loaded_world
    = (loaded_world, Raise TypeError).
Proof.
  split; [|split].
  - apply (proj1 (predict_unreadable_frame sms_context
                    (mkDataFrame [PyInt 0; PyInt 1] []) loaded_world)).
    reflexivity.
  - apply (proj2 (predict_unreadable_frame sms_context twin_frame loaded_world)
             (PyStr "text") [PyStr "win a prize"]
             [(PyStr "text", [PyStr "hello"])]).
    + reflexivity.
    + simpl. apply list_elem_of_singleton. reflexivity.
    + discriminate.
  - apply (proj2 (predict_unreadable_frame sms_context
                    (mkDataFrame [PyInt 0]
                       [(PyStr "to_list", [PyStr "hi"]);
                        (PyStr "to_list", [PyStr "ho"])]) loaded_world)
             (PyStr "to_list") [PyStr "hi"] [(PyStr "to_list", [PyStr "ho"])]).
    + reflexivity.
    + simpl. apply list_elem_of_singleton. reflexivity.
    + reflexivity.
Defined.

(** X8: [predict] called before [load_context], on a dataframe whose first
    column can be read, raises [AttributeError] for the missing [pipeline]
    attribute; nothing is called and the state is left as it was. *)
Theorem predict_before_load_context (ctx : PythonModelContext)
    (df : DataFrame) (texts : list pyval) (w : World) :
  pipeline (self w) = None → first_column_is df texts →
  predict ctx df w = (w, Raise (AttributeError "pipeline")).
Proof.
  intros Hp Hdf%first_column_texts_Ok. by apply (predict_unloaded _ _ _ texts).
Qed.

Lemma predict_before_load_context_witness :
  predict sms_context (text_frame sms_texts) empty_world
  = (empty_world, Raise (AttributeError "pipeline")).
Proof.
  apply (predict_before_load_context sms_context (text_frame sms_texts)
           sms_texts empty_world).
  - reflexivity.
  - exact (text_frame_first_column sms_texts).
Defined.



(** X10: [load_context] followed by [predict]: whatever pipeline the wrapper
    held before and whether or not CUDA is available, a column of text
    strings is scored by the artifact of the context, giving the label of
    each text in order, when that artifact is sound. *)
Theorem load_then_predict (m : Model) (K : nat) (cuda : bool)
    (ctx : PythonModelContext) (df : DataFrame) (w : World) (ss : list string) :
  model_ok m K →
  artifacts ctx !! pipeline_artifact_name = Some m →
  first_column_is df (PyStr <$> ss) →
  ((load_context cuda ctx ≫= λ _, predict ctx df) w).2
  = Ok (pd_Series (prediction_label <$> (infer m <$> ss)))
  ∧ Forall2 (λ t y, predicted_label m t = Ok y) ss
      (prediction_label <$> (infer m <$> ss)).
Proof.
  intros Hok Hm Hdf.
  destruct (load_context_loaded cuda ctx w m Hm) as (Hload & Hres & _).
  split; [|by apply (predicted_labels_Forall2 m K)].
  destruct (load_context cuda ctx w) as [w1 r] eqn:Hlc. simpl in Hload, Hres.
  subst r. erewrite M_bind_Ok; [|exact Hlc].
  by rewrite (predict_strings m K _ _ _ _ Hok Hload Hdf).
Qed.

Lemma load_then_predict_witness :
  ((load_context true sms_context ≫= λ _,
      predict sms_context (text_frame sms_texts)) failing_world).2
  = Ok (pd_Series
          (prediction_label
             <$> (infer sms_model
                    <$> ["free money now"; "see you at 5pm"; "win a prize";
                         "lunch tomorrow?"])))
  ∧ Forall2 (λ t y, predicted_label sms_model t = Ok y)
      ["free money now"; "see you at 5pm"; "win a prize"; "lunch tomorrow?"]
      (prediction_label
         <$> (infer sms_model
                <$> ["free money now"; "see you at 5pm"; "win a prize";
                     "lunch tomorrow?"])).
Proof.
  apply (load_then_predict sms_model 2 true sms_context
           (text_frame sms_texts) failing_world
           ["free money now"; "see you at 5pm"; "win a prize";
            "lunch tomorrow?"]).
  - exact sms_model_ok.
  - reflexivity.
  - exact (text_frame_first_column sms_texts).
Defined.

(** X11: an exception raised by the pipeline is not caught: [predict] raises
    the same exception and returns no series; the pipeline was called once,
    with the cells of the first column, and the state it left is kept. *)
Theorem predict_propagates_exception (ctx : PythonModelContext)
    (df : DataFrame) (texts : list pyval) (w : World) (p : Pipeline)
    (tr : Trace) (e : exn) :
  first_column_is df texts →
  pipeline (self w) = Some p →
  p texts true (Some 8) (trace w) = (tr, Raise e) →
  predict ctx df w
  = (mkWorld (self w) (pipeline_calls w ++ [(texts, true, Some 8)]) tr,
     Raise e).
Proof.
  intros Hdf%first_column_texts_Ok Hp Hcall.
  by rewrite (predict_call _ _ _ _ _ Hdf Hp), Hcall.
Qed.

Lemma predict_propagates_exception_witness :
  predict sms_context (text_frame sms_texts) failing_world
  = (mkWorld (self failing_world)
       (pipeline_calls failing_world ++ [(sms_texts, true, Some 8)]) [],
     Raise ValueError).
Proof.
  apply (predict_propagates_exception sms_context (text_frame sms_texts)
           sms_texts failing_world failing_pipeline [] ValueError).
  - exact (text_frame_first_column sms_texts).
  - reflexivity.
  - reflexivity.
Defined.

(** ** How often the model is invoked *)

Lemma chunks_length {A} (n : nat) (l : list A) :
  0 < n → length (chunks n l) = (length l + n - 1) / n.
Proof.
  intros Hn. revert l. apply (chunks_ind n); [done| |].
  { simpl. symmetry. apply Nat.div_small. lia. }
  intros x l IH. rewrite chunks_cons by done. cbn [length]. rewrite IH.
  rewrite length_drop. cbn [length].
  destruct (decide (S (length l) ≤ n)) as [Hle|Hgt].
  - replace (S (length l) - n + n - 1) with (n - 1) by lia.
    replace (S (length l) + n - 1) with (length l + 1 * n) by lia.
    rewrite Nat.div_add by lia.
    rewrite !Nat.div_small by lia. done.
  - replace (S (length l) + n - 1) with (S (length l) - n + n - 1 + 1 * n)
      by lia.
    rewrite Nat.div_add by lia. lia.
Qed.

(** X12: on n texts, [predict] with a loaded sound model invokes the model
    (n + 7) / 8 times, rounding down: once per chunk of the hardwired batch
    size 8.  No batch is empty, none holds more than 8 sequences, and taken
    in order the batches are the truncated token sequences of the texts. *)
Theorem predict_model_invocations (m : Model) (K : nat)
    (ctx : PythonModelContext) (df : DataFrame) (w : World) (ss : list string) :
  model_ok m K → loaded_from w m → first_column_is df (PyStr <$> ss) →
  ∃ batches,
    trace (predict ctx df w).1 = trace w ++ (Forward <$> batches)
    ∧ length batches = (length ss + 7) / 8
    ∧ Forall (λ b, 0 < length b ≤ 8) batches
    ∧ concat batches = truncated_ids m <$> ss.
Proof.
  intros Hok Hload Hdf.
  rewrite (predict_strings m K _ _ _ _ Hok Hload Hdf). cbn [fst trace].
  exists (fmap (M:=list) (truncated_ids m) <$> chunks 8 ss).
  split; [by rewrite <-list_fmap_compose|]. split; [|split].
  - rewrite length_fmap, chunks_length by lia. f_equal. lia.
  - apply Forall_fmap. eapply Forall_impl; [apply (chunks_sizes 8); lia|].
    intros c Hc. simpl. by rewrite length_fmap.
  - rewrite <-(chunks_concat 8 ss) at 2 by lia.
    induction (chunks 8 ss) as [|c cs IH]; [done|].
    rewrite fmap_cons. cbn [concat]. by rewrite fmap_app, IH.
Qed.

Lemma predict_model_invocations_witness :
  ∃ batches,
    trace (predict sms_context (text_frame (PyStr <$> twenty_texts))
             loaded_world).1
    = trace loaded_world ++ (Forward <$> batches)
    ∧ length batches = (length twenty_texts + 7) / 8
    ∧ Forall (λ b, 0 < length b ≤ 8) batches
    ∧ concat batches = truncated_ids sms_model <$> twenty_texts.
Proof.
  apply (predict_model_invocations sms_model 2 sms_context
           (text_frame (PyStr <$> twenty_texts)) loaded_world twenty_texts).
  - exact sms_model_ok.
  - exact loaded_world_loaded.
  - exact (text_frame_first_column (PyStr <$> twenty_texts)).
Defined.

(** ** Predicted labels and the collected labels *)

Lemma mapM_M_Ok_inv {S A B} (f : A → M S B) (P : B → Prop) (l : list A)
    (s s' : S) (k : list B) :
  (∀ x s1 s2 y, f x s1 = (s2, Ok y) → P y) →
  mapM f l s = (s', Ok k) → Forall P k.
Proof.
  intros Hf. revert s k. induction l as [|x l IH]; intros s k.
  { intros [= _ <-]. constructor. }
  rewrite mapM_M_cons.
  destruct (f x s) as [s1 [y|e]] eqn:Hx;
    [|by rewrite (M_bind_Raise _ _ _ _ _ Hx)].
  rewrite (M_bind_Ok _ _ _ _ _ Hx).
  destruct (mapM f l s1) as [s2 [k'|e]] eqn:Hl;
    [|by rewrite (M_bind_Raise _ _ _ _ _ Hl)].
  rewrite (M_bind_Ok _ _ _ _ _ Hl).
  intros [= <- <-]. constructor; [by eapply Hf|by eapply IH].
Qed.

Lemma run_chunk_Ok_inv m truncation chunk tr tr' preds :
  run_chunk m truncation chunk tr = (tr', Ok preds) →
  Forall (λ p, ∃ probs, postprocess m probs = Ok p) preds.
Proof.
  unfold run_chunk.
  destruct (mapM (tokenizer_call m truncation) chunk) as [batch|e];
    [|by erewrite M_bind_Raise by reflexivity].
  erewrite M_bind_Ok by reflexivity.
  destruct (forward m batch tr) as [tr1 [outs|e]] eqn:Hfw;
    [|by rewrite (M_bind_Raise _ _ _ _ _ Hfw)].
  rewrite (M_bind_Ok _ _ _ _ _ Hfw). unfold lift_result.
  intros [= _ Hpost]. apply mapM_result_Forall2 in Hpost.
  clear Hfw. induction Hpost as [|probs p outs preds Hp _ IH]; [constructor|].
  constructor; [by exists probs|done].
Qed.

Lemma pipeline_call_Ok_inv pl inputs truncation batch_size tr tr' preds :
  pipeline_call pl inputs truncation batch_size tr = (tr', Ok preds) →
  Forall (λ p, ∃ probs, postprocess (pipeline_model pl) probs = Ok p) preds.
Proof.
  unfold pipeline_call.
  destruct (effective_batch_size pl batch_size) as [|n]; [done|].
  destruct (mapM (run_chunk (pipeline_model pl) truncation)
              (chunks (S n) inputs) tr) as [tr1 [outs|e]] eqn:Houts;
    [|by rewrite (M_bind_Raise _ _ _ _ _ Houts)].
  rewrite (M_bind_Ok _ _ _ _ _ Houts).
  intros [= _ <-]. apply Forall_concat.
  eapply mapM_M_Ok_inv; [|exact Houts].
  intros c s1 s2 y. apply run_chunk_Ok_inv.
Qed.

Lemma postprocess_label m probs p :
  postprocess m probs = Ok p →
  ∃ i, config_id2label m !! i = Some (prediction_label p).
Proof.
  unfold postprocess. destruct (argmax probs) as [i|]; [|done].
  unfold subscript. destruct (config_id2label m !! i) as [lbl|] eqn:Hi; [|done].
  intros [= <-]. by exists i.
Qed.

(** X13: when the model was configured with the [id2label] built from the
    collected labels, every label in a series that [predict] returns is one
    of the collected labels, so [replace_labels_with_ids] with the
    [label2id] of the same enumeration maps the whole series to ids without
    raising. *)
Theorem predicted_labels_are_collected (m : Model) (labels : list Row)
    (ctx : PythonModelContext) (df : DataFrame) (w w' : World)
    (out : Series string) :
  config_id2label m = id2label labels →
  loaded_from w m →
  predict ctx df w = (w', Ok out) →
  Forall (λ y, y ∈ label <$> labels) (s_values out)
  ∧ is_Ok (replace_labels_with_ids (label2id labels) out).
Proof.
  intros Hcfg [dev Hp] Hpred.
  assert (Forall (λ y, y ∈ label <$> labels) (s_values out)) as Hin.
  { destruct (first_column_texts df) as [texts|e] eqn:Htexts.
    2:{ by rewrite (predict_no_texts _ _ _ _ Htexts) in Hpred. }
    rewrite (predict_call _ _ _ _ _ Htexts Hp) in Hpred.
    destruct (pipeline_call _ texts true (Some 8) (trace w))
      as [tr [preds|e]] eqn:Hcall; [|done].
    injection Hpred as _ <-. cbn [s_values pd_Series].
    apply pipeline_call_Ok_inv in Hcall. cbn [pipeline_model
      transformers_pipeline] in Hcall.
    apply Forall_fmap. eapply Forall_impl; [exact Hcall|].
    intros p [probs [i Hi]%postprocess_label]. simpl.
    rewrite Hcfg, id2label_lookup, <-list_lookup_fmap in Hi.
    by eapply list_elem_of_lookup_2. }
  split; [done|].
  rewrite replace_labels_with_ids_unfold, is_Ok_fmap, mapM_result_is_Ok.
  eapply Forall_impl; [exact Hin|].
  intros y [i Hi]%label2id_is_Some. exists i. by apply subscript_Some.
Qed.

Lemma predicted_labels_are_collected_witness :
  Forall (λ y, y ∈ label <$> sms_labels) ["spam"; "ham"; "spam"; "ham"]
  ∧ is_Ok (replace_labels_with_ids (label2id sms_labels)
             (pd_Series ["spam"; "ham"; "spam"; "ham"])).
Proof.
  apply (predicted_labels_are_collected sms_model sms_labels sms_context
           (text_frame sms_texts) loaded_world
           (predict sms_context (text_frame sms_texts) loaded_world).1
           (pd_Series ["spam"; "ham"; "spam"; "ham"])).
  - reflexivity.
  - exact loaded_world_loaded.
  - vm_compute. reflexivity.
Defined.

(** ** [compute_metrics] *)

Lemma argmax_from_spec (l pre : list Q) (best_i : nat) (best : Q) :
  pre !! best_i = Some best →
  Forall (λ y, (y <= best)%Q) pre →
  (∀ j y, j < best_i → pre !! j = Some y → (y < best)%Q) →
  ∃ x, (pre ++ l) !! argmax_from best_i best (length pre) l = Some x
       ∧ Forall (λ y, (y <= x)%Q) (pre ++ l)
       ∧ ∀ j y, j < argmax_from best_i best (length pre) l →
                (pre ++ l) !! j = Some y → (y < x)%Q.
Proof.
  revert pre best_i best. induction l as [|x l IH]; intros pre best_i best.
  { intros Hbest Hall Hbefore. exists best. rewrite app_nil_r. by simpl. }
  intros Hbest Hall Hbefore. cbn [argmax_from].
  pose proof (lookup_lt_Some _ _ _ Hbest) as Hlt.
  replace (pre ++ x :: l) with ((pre ++ [x]) ++ l) by by rewrite <-app_assoc.
  replace (S (length pre)) with (length (pre ++ [x]))
    by (rewrite length_app; simpl; lia).
  destruct (Qle_bool x best) eqn:Hle.
  - apply Qle_bool_iff in Hle. apply IH.
    + by rewrite lookup_app_l.
    + apply Forall_app. split; [done|]. by apply Forall_singleton.
    + intros j y Hj. rewrite lookup_app_l by lia. by apply Hbefore.
  - assert (best < x)%Q as Hgt.
    { apply Qnot_le_lt. intros Hc%Qle_bool_iff. congruence. }
    apply IH.
    + by rewrite lookup_app_r, Nat.sub_diag by lia.
    + apply Forall_app. split; [|apply Forall_singleton; apply Qle_refl].
      eapply Forall_impl; [exact Hall|]. intros y Hy. simpl.
      apply Qlt_le_weak. eapply Qle_lt_trans; [exact Hy|exact Hgt].
    + intros j y Hj. rewrite lookup_app_l by lia. intros Hy.
      eapply Qle_lt_trans; [|exact Hgt].
      eapply (proj1 (Forall_lookup _ _) Hall). exact Hy.
Qed.

(** The argmax is the position of the first largest entry. *)
Lemma argmax_spec (l : list Q) (i : nat) :
  argmax l = Some i →
  ∃ x, l !! i = Some x
       ∧ Forall (λ y, (y <= x)%Q) l
       ∧ ∀ j y, j < i → l !! j = Some y → (y < x)%Q.
Proof.
  destruct l as [|x0 l]; [done|]. intros [= <-].
  apply (argmax_from_spec l [x0] 0 x0).
  - done.
  - apply Forall_singleton; apply Qle_refl.
  - intros j y Hj. lia.
Qed.

(** X14: for logits of shape (n, K) with K > 0, [compute_metrics] hands the
    metric one prediction per row, each the position of the first largest
    entry of its row (hence a class id below K), together with the labels
    unchanged, and returns what the metric returns; with rows of width 0 it
    raises [ValueError] and the metric is not called. *)
Theorem compute_metrics_argmax {R}
    (metric_compute : list nat → list nat → result R)
    (logits : list (list Q)) (labels : list nat) :
  (∀ K, 0 < K → Forall (λ row, length row = K) logits →
     ∃ predictions,
       compute_metrics metric_compute (logits, labels)
       = metric_compute predictions labels
       ∧ Forall2 (λ row i,
            i < K
            ∧ ∃ x, row !! i = Some x
                   ∧ Forall (λ y, (y <= x)%Q) row
                   ∧ ∀ j y, j < i → row !! j = Some y → (y < x)%Q)
           logits predictions)
  ∧ (logits ≠ [] → Forall (λ row, row = []) logits →
     compute_metrics metric_compute (logits, labels) = Raise ValueError).
Proof.
  split.
  - intros K HK Hshape.
    assert (∃ predictions,
              np_argmax_rows logits = Ok predictions
              ∧ Forall2 (λ row i, argmax row = Some i) logits predictions)
      as (predictions & Hrows & Hargs).
    { unfold np_argmax_rows.
      induction Hshape as [|row logits Hrow _ (preds & Hp & Hall)].
      { exists []. split; [done|constructor]. }
      destruct row as [|x row]; [simpl in Hrow; lia|].
      exists (argmax_from 0 x 1 row :: preds). split.
      - rewrite mapM_result_cons. simpl argmax. simpl. by rewrite Hp.
      - by constructor. }
    exists predictions. split.
    { unfold compute_metrics. by rewrite Hrows. }
    clear Hrows. induction Hargs as [|row i logits preds Hi _ IH];
      [constructor|].
    apply Forall_cons in Hshape as [Hrow Hshape].
    constructor; [|by apply IH].
    destruct (argmax_spec _ _ Hi) as (x & Hx & Hmax & Hfirst).
    split; [|by exists x].
    apply lookup_lt_Some in Hx. lia.
  - intros Hne Hempty. unfold compute_metrics, np_argmax_rows.
    destruct Hempty as [|row logits' -> _]; [done|].
    by rewrite mapM_result_cons.
Qed.

Lemma compute_metrics_argmax_witness :
  ∃ predictions,
    compute_metrics (λ p r, Ok (p, r))
      ([[1 # 10; 9 # 10]; [4 # 5; 1 # 5]; [1 # 2; 1 # 2]]%Q, [1; 0; 1])
    = Ok (predictions, [1; 0; 1])
    ∧ Forall2 (λ row i,
         i < 2
         ∧ ∃ x, row !! i = Some x
                ∧ Forall (λ y, (y <= x)%Q) row
                ∧ ∀ j y, j < i → row !! j = Some y → (y < x)%Q)
        [[1 # 10; 9 # 10]; [4 # 5; 1 # 5]; [1 # 2; 1 # 2]]%Q predictions.
Proof.
  apply (proj1 (compute_metrics_argmax (λ p r, Ok (p, r))
                  [[1 # 10; 9 # 10]; [4 # 5; 1 # 5]; [1 # 2; 1 # 2]]%Q
                  [1; 0; 1]) 2).
  - lia.
  - repeat constructor.
Defined.

(** ** [tokenize_function] *)


